(* ===================================================================== *)
(*  kf: the environment client (pkg/kf/environment_client.go)            *)
(*                                                                       *)
(*  A shallow embedding of EnvironmentClient (List, Set, Unset and the   *)
(*  helpers removeEnvs, dedupeEnvs, mapToEnvs, fetchService) and the     *)
(*  properties of its read-modify-write of an application's environment. *)
(* ===================================================================== *)

From stdpp Require Import gmap strings list fin_maps.

Open Scope string_scope.
Open Scope list_scope.

(* --------------------------------------------------------------------- *)
(** * Data model                                                          *)
(* --------------------------------------------------------------------- *)

(** corev1.EnvVarSource: where a variable takes its value from when it has
    no literal value (a field, a resource, a config map key or a secret
    key).  The client never looks inside one; it is kept as the reference
    written out. *)
Record EnvVarSource : Type := mkEnvVarSource { sourceRef : string }.

#[global] Instance EnvVarSource_eq_dec : EqDecision EnvVarSource.
Proof. solve_decision. Defined.

(** corev1.EnvVar: a name, a literal value and the optional pointer
    [ValueFrom].  The client reads [env.Name] and [env.Value] only. *)
Record EnvVar : Type := EnvVarOf {
  Name : string;
  Value : string;
  ValueFrom : option EnvVarSource
}.

#[global] Instance EnvVar_eq_dec : EqDecision EnvVar.
Proof. solve_decision. Defined.

(** The composite literal [corev1.EnvVar{Name: n, Value: v}]: the field that
    is not named, [ValueFrom], is nil. *)
Definition mkEnvVar (n v : string) : EnvVar :=
  {| Name := n; Value := v; ValueFrom := None |}.

(** serving.Service.  The client touches one field only, the slice at
    [s.Spec.RunLatest.Configuration.RevisionTemplate.Spec.Container.Env].
    [Spec.RunLatest] is a pointer, set for a service in run-latest mode and
    nil for one in another mode: [RunLatest s] is [Some envs] when it is set
    and the container's environment list is [envs], and [None] when it is
    nil.  [Rest] stands for every other field of the resource, of a type [R]
    the client never inspects. *)
Record Service (R : Type) : Type := mkService {
  Rest : R;
  RunLatest : option (list EnvVar)
}.
Arguments mkService {R} _ _.
Arguments Rest {R} _.
Arguments RunLatest {R} _.

(** The assignment [s.Spec.RunLatest. ... .Container.Env = envs], through a
    [RunLatest] pointer that is set. *)
Definition setEnv {R : Type} (s : Service R) (envs : list EnvVar) : Service R :=
  {| Rest := Rest s; RunLatest := Some envs |}.

(** Go [error] values the client can return: the two it builds itself and
    whatever a collaborator hands back. *)
Inductive error : Type :=
| ErrInvalidAppName                 (* errors.New("invalid app name") *)
| ErrUnknownApp (appName : string)  (* fmt.Errorf("unknown app: '%s'", appName) *)
| ErrUpstream (msg : string).       (* an error value of a collaborator *)

#[global] Instance error_eq_dec : EqDecision error.
Proof. solve_decision. Defined.

(** The message of an error ([err.Error()]). *)
Definition Error (e : error) : string :=
  match e with
  | ErrInvalidAppName => "invalid app name"
  | ErrUnknownApp appName => String.append "unknown app: '" (String.append appName "'")
  | ErrUpstream msg => msg
  end.

(** Go leaves the order of [for k, v := range m] unspecified: every entry
    is visited once, in some order.  A [MapRange] is one such choice of
    order; every definition below that ranges over a map takes it as an
    argument, so what is proved holds for all of them. *)
Record MapRange : Type := mkMapRange {
  range : gmap string string → list (string * string);
  range_perm : ∀ m, range m ≡ₚ map_to_list m
}.

(** Two iteration orders to run examples with. *)
Definition keyOrder : MapRange :=
  {| range := map_to_list; range_perm := λ m, reflexivity (map_to_list m) |}.

Definition reverseOrder : MapRange :=
  {| range := λ m, reverse (map_to_list m);
     range_perm := λ m, reverse_Permutation (map_to_list m) |}.

(* --------------------------------------------------------------------- *)
(** * The helpers on environment lists                                    *)
(* --------------------------------------------------------------------- *)

(** func (c *EnvironmentClient) removeEnvs(names []string, envs []corev1.EnvVar) *)
Definition removeEnvs (names : list string) (envs : list EnvVar) : list EnvVar :=
  let m : gmap string bool :=
    foldl (λ (m : gmap string bool) name, <[name := true]> m) ∅ names in
  foldl (λ newValues env,
           if default false (m !! Name env) then newValues
           else newValues ++ [env])
        [] envs.

(** func (c *EnvironmentClient) dedupeEnvs(values map[string]string, envs []corev1.EnvVar) *)
Definition dedupeEnvs (O : MapRange) (values : gmap string string)
    (envs : list EnvVar) : gmap string string :=
  let newValues : gmap string string :=
    foldl (λ (nv : gmap string string) e, <[Name e := Value e]> nv) ∅ envs in
  foldl (λ (nv : gmap string string) '(n, v), <[n := v]> nv) newValues (range O values).

(** func (c *EnvironmentClient) mapToEnvs(values map[string]string) *)
Definition mapToEnvs (O : MapRange) (values : gmap string string) : list EnvVar :=
  foldl (λ envs '(n, v), envs ++ [mkEnvVar n v]) [] (range O values).

(* --------------------------------------------------------------------- *)
(** * Options                                                             *)
(* --------------------------------------------------------------------- *)

(** Modelled from the spec: the option types (ListEnvOption, SetEnvOption,
    UnsetEnvOption), their defaults and [Extend(opts).toConfig()] are generated
    code that is not under src/.  The spec gives them one recognised option,
    [Namespace], which overrides the target namespace and defaults to the
    platform-configured default namespace; the three Go option types carry
    that same option and are modelled by one type. *)
Inductive EnvOption : Type :=
| WithNamespace (namespace : string).

Record config : Type := mkConfig { Namespace : string }.

Definition toConfig (defaultNamespace : string) (opts : list EnvOption) : config :=
  foldl (λ _ o, match o with WithNamespace namespace => mkConfig namespace end)
        (mkConfig defaultNamespace) opts.

(* --------------------------------------------------------------------- *)
(** * Programs over the two collaborators                                 *)
(* --------------------------------------------------------------------- *)

(** The client talks to an AppLister ([c.l]) and a ServingFactory ([c.f]);
    both are interfaces.  A client method is a finite tree of calls to them:
    [CallList] is [c.l.List(WithListNamespace(ns), WithListAppName(app))],
    [CallFactory] is [c.f()], and [CallUpdate client ns s] is
    [client.Services(ns).Update(&s)] on a handle [client : H] the factory
    returned.  Each continuation receives the Go result pair as a sum.
    [Panic] is a run-time panic (here: a nil pointer dereference), which
    ends the method without a result. *)
Inductive prog (R H A : Type) : Type :=
| Ret (a : A)
| Panic
| CallList (namespace appName : string) (k : error + list (Service R) → prog R H A)
| CallFactory (k : error + H → prog R H A)
| CallUpdate (client : H) (namespace : string) (s : Service R)
             (k : error + Service R → prog R H A).
Arguments Ret {R H A} _.
Arguments Panic {R H A}.
Arguments CallList {R H A} _ _ _.
Arguments CallFactory {R H A} _.
Arguments CallUpdate {R H A} _ _ _ _.

Fixpoint bind {R H A B : Type} (p : prog R H A) (f : A → prog R H B) : prog R H B :=
  match p with
  | Ret a => f a
  | Panic => Panic
  | CallList ns app k => CallList ns app (λ r, bind (k r) f)
  | CallFactory k => CallFactory (λ r, bind (k r) f)
  | CallUpdate c ns s k => CallUpdate c ns s (λ r, bind (k r) f)
  end.

Declare Scope prog_scope.
Delimit Scope prog_scope with prog.
Notation "x <- p ;; q" := (bind p (λ x, q))
  (at level 100, p at next level, right associativity) : prog_scope.
Open Scope prog_scope.

Section Client.
Context {R H : Type}.

(** The default namespace of the option defaults, and the order in which
    this run of the program ranges over its maps. *)
Variable defaultNamespace : string.
Variable O : MapRange.

Definition listApps (namespace appName : string) : prog R H (error + list (Service R)) :=
  CallList namespace appName Ret.

Definition newClient : prog R H (error + H) :=
  CallFactory Ret.

Definition updateService (client : H) (namespace : string) (s : Service R)
  : prog R H (error + Service R) :=
  CallUpdate client namespace s Ret.

(** func (c *EnvironmentClient) fetchService(namespace, appName string) *)
Definition fetchService (namespace appName : string) : prog R H (error + Service R) :=
  r <- listApps namespace appName ;;
  match r with
  | inl err => Ret (inl err)
  | inr services =>
      if decide (length services ≠ 1) then Ret (inl (ErrUnknownApp appName))
      else match services with
           | s :: _ => Ret (inr s)                        (* services[0] *)
           | [] => Ret (inl (ErrUnknownApp appName))      (* not reached: len(services) = 1 *)
           end
  end.

(** func (c *EnvironmentClient) List(appName string, opts ...ListEnvOption) *)
Definition List (appName : string) (opts : list EnvOption)
  : prog R H (error + gmap string string) :=
  if decide (appName = "") then Ret (inl ErrInvalidAppName)
  else
    let cfg := toConfig defaultNamespace opts in
    r <- fetchService (Namespace cfg) appName ;;
    match r with
    | inl err => Ret (inl err)
    | inr s =>
        match RunLatest s with
        | None => Panic                    (* s.Spec.RunLatest is nil *)
        | Some envs =>
            let results : gmap string string :=
              foldl (λ (results : gmap string string) env,
                       <[Name env := Value env]> results)
                    ∅ envs in
            Ret (inr results)
        end
    end.

(** func (c *EnvironmentClient) Set(appName string, values map[string]string, opts ...SetEnvOption)
    ([Set] is reserved in Rocq, hence the underscore; [None] is Go's nil error). *)
Definition Set_ (appName : string) (values : gmap string string) (opts : list EnvOption)
  : prog R H (option error) :=
  if decide (appName = "") then Ret (Some ErrInvalidAppName)
  else
    let cfg := toConfig defaultNamespace opts in
    rc <- newClient ;;
    match rc with
    | inl err => Ret (Some err)
    | inr client =>
        rs <- fetchService (Namespace cfg) appName ;;
        match rs with
        | inl err => Ret (Some err)
        | inr s =>
            match RunLatest s with
            | None => Panic                (* s.Spec.RunLatest is nil *)
            | Some envs =>
                let newValues := dedupeEnvs O values envs in
                let s := setEnv s (mapToEnvs O newValues) in
                ru <- updateService client (Namespace cfg) s ;;
                match ru with
                | inl err => Ret (Some err)
                | inr _ => Ret None
                end
            end
        end
    end.

(** func (c *EnvironmentClient) Unset(appName string, names []string, opts ...UnsetEnvOption) *)
Definition Unset_ (appName : string) (names : list string) (opts : list EnvOption)
  : prog R H (option error) :=
  if decide (appName = "") then Ret (Some ErrInvalidAppName)
  else
    let cfg := toConfig defaultNamespace opts in
    rc <- newClient ;;
    match rc with
    | inl err => Ret (Some err)
    | inr client =>
        rs <- fetchService (Namespace cfg) appName ;;
        match rs with
        | inl err => Ret (Some err)
        | inr s =>
            match RunLatest s with
            | None => Panic                (* s.Spec.RunLatest is nil *)
            | Some envs =>
                let newValues := removeEnvs names envs in
                let s := setEnv s newValues in
                ru <- updateService client (Namespace cfg) s ;;
                match ru with
                | inl err => Ret (Some err)
                | inr _ => Ret None
                end
            end
        end
    end.

(** The shape Set and Unset share (handle, fetch, new list, update), with
    the computation of the new list left open.  Not a function of the
    source: the two methods above are shown to be instances of it. *)
Definition readModifyWrite (g : list EnvVar → list EnvVar)
    (appName : string) (opts : list EnvOption) : prog R H (option error) :=
  if decide (appName = "") then Ret (Some ErrInvalidAppName)
  else
    let cfg := toConfig defaultNamespace opts in
    rc <- newClient ;;
    match rc with
    | inl err => Ret (Some err)
    | inr client =>
        rs <- fetchService (Namespace cfg) appName ;;
        match rs with
        | inl err => Ret (Some err)
        | inr s =>
            match RunLatest s with
            | None => Panic
            | Some envs =>
                ru <- updateService client (Namespace cfg) (setEnv s (g envs)) ;;
                match ru with
                | inl err => Ret (Some err)
                | inr _ => Ret None
                end
            end
        end
    end.

End Client.

(* --------------------------------------------------------------------- *)
(** * Running a program against a platform                                *)
(* --------------------------------------------------------------------- *)

(** What the collaborators do, over a state [W] of the platform.  The
    lister and the factory are queries; [services_Update] is the one call
    that may change the state.  The client is written against these three
    operations only. *)
Class Platform (R H W : Type) : Type := {
  lister_List : W → string → string → error + list (Service R);
  factory : W → error + H;
  services_Update : H → string → Service R → W → W * (error + Service R)
}.

(** One upstream call together with what it returned. *)
Inductive event (R H : Type) : Type :=
| EvList (namespace appName : string) (r : error + list (Service R))
| EvFactory (r : error + H)
| EvUpdate (client : H) (namespace : string) (s : Service R) (r : error + Service R).
Arguments EvList {R H} _ _ _.
Arguments EvFactory {R H} _.
Arguments EvUpdate {R H} _ _ _ _.

(** How a method ends: it returns a value, or it panics. *)
Inductive returned (A : Type) : Type :=
| Returns (a : A)
| Panics.
Arguments Returns {A} _.
Arguments Panics {A}.

#[global] Instance returned_eq_dec {A : Type} `{EqDecision A} : EqDecision (returned A).
Proof. solve_decision. Defined.

(** The outcome of a run: final platform state, the upstream calls made in
    order, and how the method ended. *)
Record outcome (R H W A : Type) : Type := mkOutcome {
  final : W;
  calls : list (event R H);
  result : returned A
}.
Arguments mkOutcome {R H W A} _ _ _.
Arguments final {R H W A} _.
Arguments calls {R H W A} _.
Arguments result {R H W A} _.

Fixpoint run {R H W A : Type} `{Platform R H W} (p : prog R H A) (w : W)
  : outcome R H W A :=
  match p with
  | Ret a => mkOutcome w [] (Returns a)
  | Panic => mkOutcome w [] Panics
  | CallList ns app k =>
      let r := lister_List w ns app in
      let o := run (k r) w in
      mkOutcome (final o) (EvList ns app r :: calls o) (result o)
  | CallFactory k =>
      let r := factory w in
      let o := run (k r) w in
      mkOutcome (final o) (EvFactory r :: calls o) (result o)
  | CallUpdate c ns s k =>
      let '(w1, r) := services_Update c ns s w in
      let o := run (k r) w1 in
      mkOutcome (final o) (EvUpdate c ns s r :: calls o) (result o)
  end.

(** What the claims about persisted state take for granted of the platform
    ("no intervening external mutation"): a rejected update changes nothing,
    and an accepted update of the one resource that a namespace/name query
    returned, differing from it in the environment list only, is what the
    same query returns next, as far as the run-latest environment list
    goes. *)
Class PlatformLaws (R H W : Type) `{Platform R H W} : Prop := {
  update_rejected : ∀ (c : H) ns (s : Service R) (w w' : W) e,
    services_Update c ns s w = (w', inl e) → w' = w;
  update_persisted : ∀ (c : H) ns app (s0 s s' : Service R) (w w' : W),
    factory w = inr c →
    lister_List w ns app = inr [s0] →
    Rest s = Rest s0 →
    services_Update c ns s w = (w', inr s') →
    ∃ s1, lister_List w' ns app = inr [s1] ∧ RunLatest s1 = RunLatest s
}.

(* --------------------------------------------------------------------- *)
(** * Notions the properties are stated with                              *)
(* --------------------------------------------------------------------- *)

(** An environment list read as a mapping: the pairs inserted in list
    order, so that a later pair overwrites an earlier one of the same
    name. *)
Definition envsToMap (envs : list EnvVar) : gmap string string :=
  foldl (λ (m : gmap string string) e, <[Name e := Value e]> m) ∅ envs.

(** The value of the last pair named [n] in an environment list. *)
Definition lastValue (n : string) (envs : list EnvVar) : option string :=
  Value <$> last (filter (λ e, Name e = n) envs).

(** A mapping written out as one pair per entry. *)
Definition pairsOf (m : gmap string string) : list EnvVar :=
  (λ nv, mkEnvVar nv.1 nv.2) <$> map_to_list m.

(** The list filter of Unset as the spec words it: keep the pairs whose
    name is not among [names], in their original order. *)
Definition keepEnvs (names : list string) (envs : list EnvVar) : list EnvVar :=
  filter (λ e, Name e ∉ names) envs.

(** The environment list the platform holds for an application, as a
    namespace/name query shows it: defined when exactly one resource
    matches and it is in run-latest mode. *)
Definition persistedEnv {R H W : Type} `{Platform R H W}
    (w : W) (namespace appName : string) : option (list EnvVar) :=
  match lister_List w namespace appName with
  | inr [s] => RunLatest s
  | _ => None
  end.

(** The upstream call [ev] reported the error [e] to an operation on
    [appName]: either the call itself failed with [e], or it is a listing
    that did not match exactly once and [e] is the unknown-app error. *)
Definition reported {R H : Type} (appName : string) (ev : event R H) (e : error) : Prop :=
  match ev with
  | EvList _ _ r =>
      r = inl e ∨ ∃ l, r = inr l ∧ length l ≠ 1 ∧ e = ErrUnknownApp appName
  | EvFactory r => r = inl e
  | EvUpdate _ _ _ r => r = inl e
  end.

(** An update the platform accepted. *)
Definition accepted {R H : Type} (ev : event R H) : Prop :=
  match ev with
  | EvUpdate _ _ _ (inr _) => True
  | _ => False
  end.

(** An operation that returned the error [e] with outcome [o] from the
    state [w] failed cleanly: the platform state is as before, no update
    was accepted on the way, and [e] is the invalid-app-name error of an
    operation that made no call, or else what its last upstream call
    reported. *)
Definition failedCleanly {R H W : Type} (appName : string) (w : W)
    (o : outcome R H W (option error)) (e : error) : Prop :=
  final o = w
  ∧ (∀ ev, ev ∈ calls o → ¬ accepted ev)
  ∧ (calls o = [] ∧ e = ErrInvalidAppName
     ∨ ∃ evs ev, calls o = evs ++ [ev] ∧ reported appName ev e).

(** The outcome [o] of an operation on [appName] from the state [w] shows
    one full-resource update of the fetched resource with nothing but its
    environment list replaced: the calls are the factory, the listing that
    returned the single resource [s], which is in run-latest mode, and one
    accepted Update whose argument [s'] has every field other than the
    environment list as in [s]. *)
Definition updatedEnvOnly {R H W : Type} `{Platform R H W}
    (w : W) (namespace appName : string) (o : outcome R H W (option error)) : Prop :=
  ∃ (client : H) (s s' r : Service R) (envs envs' : list EnvVar),
    lister_List w namespace appName = inr [s]
    ∧ RunLatest s = Some envs
    ∧ calls o = [EvFactory (inr client); EvList namespace appName (inr [s]);
                 EvUpdate client namespace s' (inr r)]
    ∧ Rest s' = Rest s
    ∧ s' = setEnv s envs'.

(** The call logs a write operation on [appName] in [namespace] can leave:
    nothing (empty app name); the factory alone, having failed; the factory
    and then a listing that did not give exactly one resource in run-latest
    mode; or the factory, the listing of one resource [s] and, last, one
    Update through the handle the factory returned, in the namespace of the
    listing, of [s] with another environment list. *)
Definition writeLog {R H : Type} (namespace appName : string)
    (log : list (event R H)) : Prop :=
  appName = "" ∧ log = []
  ∨ (∃ e, log = [EvFactory (inl e)])
  ∨ (∃ client r, log = [EvFactory (inr client); EvList namespace appName r]
                 ∧ ∀ s, r = inr [s] → RunLatest s = None)
  ∨ (∃ client s s' r,
       log = [EvFactory (inr client); EvList namespace appName (inr [s]);
              EvUpdate client namespace s' r]
       ∧ is_Some (RunLatest s)
       ∧ Rest s' = Rest s).

(* --------------------------------------------------------------------- *)
(** * An in-memory platform                                               *)
(* --------------------------------------------------------------------- *)

(** A fake of the two collaborators over a list of stored resources, each
    identified by namespace and name; the three error fields make the
    lister, the factory or the update fail on demand. *)
Record Meta : Type := mkMeta { metaNamespace : string; metaName : string }.

#[global] Instance Meta_eq_dec : EqDecision Meta.
Proof. solve_decision. Defined.

Record Fake : Type := mkFake {
  stored : list (Service Meta);
  listErr : option error;
  factoryErr : option error;
  updateErr : option error
}.

Definition matches (namespace appName : string) (s : Service Meta) : bool :=
  bool_decide (metaNamespace (Rest s) = namespace ∧ metaName (Rest s) = appName).

Definition fakeList (w : Fake) (namespace appName : string)
  : error + list (Service Meta) :=
  match listErr w with
  | Some e => inl e
  | None => inr (filter (λ s, matches namespace appName s = true) (stored w))
  end.

Definition fakeFactory (w : Fake) : error + unit :=
  match factoryErr w with
  | Some e => inl e
  | None => inr tt
  end.

Definition fakeUpdate (_ : unit) (namespace : string) (s : Service Meta) (w : Fake)
  : Fake * (error + Service Meta) :=
  match updateErr w with
  | Some e => (w, inl e)
  | None =>
      let hit := matches namespace (metaName (Rest s)) in
      if existsb hit (stored w)
      then (mkFake ((λ s0, if hit s0 then s else s0) <$> stored w)
                   (listErr w) (factoryErr w) (updateErr w),
            inr s)
      else (w, inl (ErrUpstream "not found"))
  end.

#[global] Instance fake_platform : Platform Meta unit Fake :=
  {| lister_List := fakeList; factory := fakeFactory; services_Update := fakeUpdate |}.

(** A store with one application in namespace "default". *)
Definition app1 (envs : list EnvVar) : Service Meta :=
  mkService (mkMeta "default" "app") (Some envs).

(** The same application not in run-latest mode, alone in a store. *)
Definition pinned : Service Meta :=
  mkService (mkMeta "default" "app") None.

Definition storePinned : Fake :=
  mkFake [pinned] None None None.

(** A variable whose value comes from a secret. *)
Definition fromSecret : EnvVar :=
  {| Name := "A"; Value := ""; ValueFrom := Some (mkEnvVarSource "secret/a") |}.

Definition store1 (envs : list EnvVar) : Fake :=
  mkFake [app1 envs] None None None.

(** The same store with a platform that rejects every update. *)
Definition rejecting (envs : list EnvVar) : Fake :=
  mkFake [app1 envs] None None (Some (ErrUpstream "conflict")).

(** No application at all, and the same application stored twice. *)
Definition store0 : Fake := mkFake [] None None None.

Definition store2 (envs : list EnvVar) : Fake :=
  mkFake [app1 envs; app1 envs] None None None.

Definition envAB : list EnvVar := [mkEnvVar "A" "0"; mkEnvVar "B" "2"].
Definition envABC : list EnvVar := [mkEnvVar "A" "1"; mkEnvVar "B" "2"; mkEnvVar "C" "3"].
Definition envABA : list EnvVar := [mkEnvVar "A" "1"; mkEnvVar "B" "2"; mkEnvVar "A" "3"].

(** A lister that fails, and a factory that fails over an empty store. *)
Definition listFailing (envs : list EnvVar) : Fake :=
  mkFake [app1 envs] (Some (ErrUpstream "timeout")) None None.

Definition noHandle : Fake :=
  mkFake [] None (Some (ErrUpstream "no cluster")) None.

(* ===================================================================== *)
(** * Properties of the helpers                                           *)
(* ===================================================================== *)

Example removeEnvs_ex :
  removeEnvs ["B"] [mkEnvVar "A" "1"; mkEnvVar "B" "2"; mkEnvVar "C" "3"]
  = [mkEnvVar "A" "1"; mkEnvVar "C" "3"].
Proof. vm_compute. reflexivity. Qed.

Example dedupeEnvs_ex :
  dedupeEnvs keyOrder {["A" := "1"]} [mkEnvVar "A" "0"; mkEnvVar "B" "2"]
  = {["A" := "1"; "B" := "2"]}.
Proof. vm_compute. reflexivity. Qed.

(** The order of the written list follows the order of the range. *)
Example mapToEnvs_orders :
  mapToEnvs keyOrder {["A" := "1"; "B" := "2"]}
  = reverse (mapToEnvs reverseOrder {["A" := "1"; "B" := "2"]})
  ∧ mapToEnvs keyOrder {["A" := "1"; "B" := "2"]}
    ≠ mapToEnvs reverseOrder {["A" := "1"; "B" := "2"]}.
Proof. split; [vm_compute; reflexivity|vm_compute; discriminate]. Qed.

Section Helpers.
Implicit Types (m values : gmap string string) (envs : list EnvVar).
Implicit Types (l : list (string * string)) (names : list string).

(** Inserting pairs one after the other: the last pair of a name decides,
    and a name without a pair keeps what the accumulator had. *)
Lemma foldl_insert_env_lookup envs m n :
  foldl (λ (acc : gmap string string) e, <[Name e := Value e]> acc) m envs !! n
  = match lastValue n envs with Some v => Some v | None => m !! n end.
Proof.
  unfold lastValue. revert m.
  induction envs as [|e envs IH]; intros m; simpl; [done|].
  rewrite IH, filter_cons. case_decide as Hn.
  - rewrite last_cons. destruct (last (filter _ envs)); simpl; [done|].
    subst n. by rewrite lookup_insert_eq.
  - destruct (last (filter _ envs)); simpl; [done|].
    by rewrite lookup_insert_ne.
Qed.

Lemma envsToMap_lookup envs n : envsToMap envs !! n = lastValue n envs.
Proof.
  unfold envsToMap. rewrite foldl_insert_env_lookup, lookup_empty.
  by destruct (lastValue n envs).
Qed.

(** Inserting the entries of a duplicate-free pair list over [m]. *)
Lemma foldl_insert_pairs l m :
  NoDup (l.*1) →
  foldl (λ (acc : gmap string string) '(n, v), <[n := v]> acc) m l
  = (list_to_map l : gmap string string) ∪ m.
Proof.
  revert m. induction l as [|[n v] l IH]; intros m Hnd; simpl.
  - by rewrite (left_id_L ∅ (∪)).
  - apply NoDup_cons in Hnd as [Hn Hnd]. rewrite IH by done.
    apply map_eq; intros k. rewrite !lookup_union.
    destruct (decide (n = k)) as [->|Hk].
    + rewrite (not_elem_of_list_to_map_1 l k Hn), !lookup_insert_eq.
      simpl. by destruct (m !! k).
    + by rewrite !lookup_insert_ne.
Qed.

Lemma range_NoDup (O : MapRange) m : NoDup ((range O m).*1).
Proof.
  rewrite (range_perm O m). apply NoDup_fst_map_to_list.
Qed.

Lemma range_to_map (O : MapRange) m : list_to_map (range O m) = m.
Proof.
  rewrite (list_to_map_proper _ (map_to_list m)).
  - apply list_to_map_to_list.
  - apply range_NoDup.
  - apply range_perm.
Qed.

(** dedupeEnvs is the overlay of [values] on the existing pairs read as a
    mapping, whatever the iteration order. *)
Lemma dedupeEnvs_union (O : MapRange) values envs :
  dedupeEnvs O values envs = values ∪ envsToMap envs.
Proof.
  unfold dedupeEnvs. rewrite foldl_insert_pairs by apply range_NoDup.
  by rewrite range_to_map.
Qed.

Lemma foldl_snoc_pairs l (acc : list EnvVar) :
  foldl (λ envs '(n, v), envs ++ [mkEnvVar n v]) acc l
  = acc ++ ((λ nv, mkEnvVar nv.1 nv.2) <$> l).
Proof.
  revert acc. induction l as [|[n v] l IH]; intros acc; simpl.
  - by rewrite app_nil_r.
  - by rewrite IH, <- app_assoc.
Qed.

(** mapToEnvs writes one pair per entry, in the order of the range. *)
Lemma mapToEnvs_fmap (O : MapRange) m :
  mapToEnvs O m = (λ nv, mkEnvVar nv.1 nv.2) <$> range O m.
Proof. unfold mapToEnvs. by rewrite foldl_snoc_pairs. Qed.

Lemma mapToEnvs_perm (O : MapRange) m : mapToEnvs O m ≡ₚ pairsOf m.
Proof. rewrite mapToEnvs_fmap. unfold pairsOf. by rewrite (range_perm O m). Qed.

Lemma mapToEnvs_names (O : MapRange) m : Name <$> mapToEnvs O m = (range O m).*1.
Proof.
  rewrite mapToEnvs_fmap, <- list_fmap_compose. by apply list_fmap_ext.
Qed.

Lemma mapToEnvs_NoDup (O : MapRange) m : NoDup (Name <$> mapToEnvs O m).
Proof. rewrite mapToEnvs_names. apply range_NoDup. Qed.

Lemma envsToMap_pairs l :
  envsToMap ((λ nv, mkEnvVar nv.1 nv.2) <$> l)
  = foldl (λ (acc : gmap string string) '(n, v), <[n := v]> acc) ∅ l.
Proof.
  unfold envsToMap. generalize (∅ : gmap string string).
  induction l as [|[n v] l IH]; intros acc; simpl; [done|]. by rewrite IH.
Qed.

(** Reading back what mapToEnvs wrote gives the mapping again. *)
Lemma envsToMap_mapToEnvs (O : MapRange) m : envsToMap (mapToEnvs O m) = m.
Proof.
  rewrite mapToEnvs_fmap, envsToMap_pairs, foldl_insert_pairs by apply range_NoDup.
  by rewrite range_to_map, (right_id_L ∅ (∪)).
Qed.

(** The removal set of removeEnvs holds exactly the given names. *)
Lemma removal_set_lookup names (acc : gmap string bool) n :
  default false (foldl (λ (m : gmap string bool) name, <[name := true]> m) acc names !! n)
  = true ↔ n ∈ names ∨ default false (acc !! n) = true.
Proof.
  revert acc. induction names as [|x names IH]; intros acc; simpl.
  - rewrite elem_of_nil. tauto.
  - rewrite IH, elem_of_cons. destruct (decide (x = n)) as [->|Hx].
    + rewrite lookup_insert_eq. simpl. tauto.
    + rewrite lookup_insert_ne by done. split; [tauto|].
      intros [[Hn|Hn]|Hn]; [congruence|tauto|tauto].
Qed.

Lemma foldl_keep (P : EnvVar → bool) envs (acc : list EnvVar) :
  foldl (λ newValues env, if P env then newValues else newValues ++ [env]) acc envs
  = acc ++ filter (λ e, P e = false) envs.
Proof.
  revert acc. induction envs as [|e envs IH]; intros acc; simpl.
  - by rewrite app_nil_r.
  - rewrite IH, filter_cons. destruct (P e) eqn:HP; case_decide; try done.
    by rewrite <- app_assoc.
Qed.

(** removeEnvs is the list filter of the spec. *)
Lemma removeEnvs_keepEnvs names envs : removeEnvs names envs = keepEnvs names envs.
Proof.
  unfold removeEnvs, keepEnvs.
  rewrite (foldl_keep (λ env, default false (_ !! Name env))). simpl.
  apply list_filter_iff. intros e.
  rewrite <- not_true_iff_false, removal_set_lookup, lookup_empty. simpl.
  split; [tauto|]. intros Hn [?|?]; [tauto|done].
Qed.

Lemma keepEnvs_idemp names envs : keepEnvs names (keepEnvs names envs) = keepEnvs names envs.
Proof. unfold keepEnvs. by rewrite list_filter_filter_l. Qed.

Lemma keepEnvs_none_left names envs n :
  n ∈ names → filter (λ e, Name e = n) (keepEnvs names envs) = [].
Proof.
  intros Hn. unfold keepEnvs. rewrite list_filter_filter.
  induction envs as [|e envs IH]; [done|].
  rewrite filter_cons. case_decide as Hd; [|done]. destruct Hd as [-> Hd]. done.
Qed.

End Helpers.

(* ===================================================================== *)
(** * Runs of the client                                                  *)
(* ===================================================================== *)

Section Runs.
Context {R H W : Type} `{!Platform R H W}.
Variable defaultNamespace : string.
Variable O : MapRange.

Local Abbreviation nsOf opts := (Namespace (toConfig defaultNamespace opts)).

Lemma Set_shape appName values opts :
  Set_ (R:=R) (H:=H) defaultNamespace O appName values opts
  = readModifyWrite defaultNamespace
      (λ envs, mapToEnvs O (dedupeEnvs O values envs)) appName opts.
Proof. reflexivity. Qed.

Lemma Unset_shape appName names opts :
  Unset_ (R:=R) (H:=H) defaultNamespace appName names opts
  = readModifyWrite defaultNamespace (removeEnvs names) appName opts.
Proof. reflexivity. Qed.

(** fetchService makes one listing call and succeeds exactly on a
    one-element answer. *)
Lemma run_fetchService namespace appName (w : W) :
  run (fetchService (R:=R) (H:=H) namespace appName) w
  = mkOutcome w [EvList namespace appName (lister_List w namespace appName)]
      (Returns match lister_List w namespace appName with
               | inl err => inl err
               | inr [s] => inr s
               | inr _ => inl (ErrUnknownApp appName)
               end).
Proof.
  unfold fetchService, listApps. simpl.
  destruct (lister_List w namespace appName) as [err|[|s [|s2 l]]]; reflexivity.
Qed.

(** Every run of List. *)
Lemma run_List appName opts (w : W) :
  run (List (R:=R) (H:=H) defaultNamespace appName opts) w
  = if decide (appName = "") then mkOutcome w [] (Returns (inl ErrInvalidAppName))
    else
      let r := lister_List w (nsOf opts) appName in
      mkOutcome w [EvList (nsOf opts) appName r]
        match r with
        | inl err => Returns (inl err)
        | inr [s] =>
            match RunLatest s with
            | None => Panics
            | Some envs => Returns (inr (envsToMap envs))
            end
        | inr _ => Returns (inl (ErrUnknownApp appName))
        end.
Proof.
  unfold List. case_decide; [reflexivity|].
  unfold fetchService, listApps. simpl.
  destruct (lister_List w _ appName) as [err|[|s [|s2 l]]]; try reflexivity.
  simpl. destruct (RunLatest s); reflexivity.
Qed.

(** Every run of the read-modify-write shape. *)
Lemma run_readModifyWrite g appName opts (w : W) :
  run (readModifyWrite (R:=R) (H:=H) defaultNamespace g appName opts) w
  = if decide (appName = "")
    then mkOutcome w [] (Returns (Some ErrInvalidAppName))
    else
      match factory w with
      | inl err => mkOutcome w [EvFactory (inl err)] (Returns (Some err))
      | inr client =>
          let ns := nsOf opts in
          match lister_List w ns appName with
          | inl err =>
              mkOutcome w [EvFactory (inr client); EvList ns appName (inl err)]
                (Returns (Some err))
          | inr [s] =>
              match RunLatest s with
              | None =>
                  mkOutcome w [EvFactory (inr client); EvList ns appName (inr [s])]
                    Panics
              | Some envs =>
                  let s' := setEnv s (g envs) in
                  let wr := services_Update client ns s' w in
                  mkOutcome wr.1
                    [EvFactory (inr client); EvList ns appName (inr [s]);
                     EvUpdate client ns s' wr.2]
                    (Returns match wr.2 with inl err => Some err | inr _ => None end)
              end
          | inr l =>
              mkOutcome w [EvFactory (inr client); EvList ns appName (inr l)]
                (Returns (Some (ErrUnknownApp appName)))
          end
      end.
Proof.
  unfold readModifyWrite. case_decide; [reflexivity|].
  unfold newClient, fetchService, listApps, updateService. simpl.
  destruct (factory w) as [err|client]; [reflexivity|]. simpl.
  destruct (lister_List w _ appName) as [err|[|s [|s2 l]]]; try reflexivity.
  simpl. destruct (RunLatest s) as [envs|]; [|reflexivity]. simpl.
  destruct (services_Update client _ _ w) as [w1 [err|s1]]; reflexivity.
Qed.

End Runs.

(* ===================================================================== *)
(** * The operations: what they return and what they write                *)
(* ===================================================================== *)

Section Operations.
Context {R H W : Type} `{!Platform R H W}.
Variable defaultNamespace : string.
Variable O : MapRange.

Local Abbreviation nsOf opts := (Namespace (toConfig defaultNamespace opts)).

(** C1 (as amended).  For a non-empty appName for which the App Lister
    returns exactly one service resource [s], and [s] is in run-latest mode
    with environment list [envs], List succeeds after that one listing
    call, and the mapping it returns is [envs] inserted pair by pair in
    list order: a name maps to the value of its last pair in the list. *)
Theorem List_returns_env_mapping appName opts (w : W) (s : Service R) envs :
  appName ≠ "" →
  lister_List w (nsOf opts) appName = inr [s] →
  RunLatest s = Some envs →
  ∃ m : gmap string string,
    run (List defaultNamespace appName opts) w
    = mkOutcome w [EvList (nsOf opts) appName (inr [s])] (Returns (inr m))
    ∧ m = foldl (λ (acc : gmap string string) e, <[Name e := Value e]> acc) ∅ envs
    ∧ ∀ n, m !! n = lastValue n envs.
Proof.
  intros Hname Hlist Hrl. exists (envsToMap envs).
  split; [|split; [reflexivity|apply envsToMap_lookup]].
  rewrite run_List. rewrite decide_False by done. simpl. by rewrite Hlist, Hrl.
Qed.

(** C2 (as amended).  For a non-empty appName with exactly one matching
    resource [s], in run-latest mode with environment list [envs], Set
    hands the platform, in its single Update call, the resource [s] with an
    environment list that, read as a mapping, is the existing pairs
    collapsed into a mapping and overlaid with [values]: one pair per entry
    of that mapping, and a name of [values] carries the caller's value.
    (Without a handle from the factory nothing is written.) *)
Theorem Set_persists_merge appName values opts (w : W) (s : Service R) envs :
  appName ≠ "" →
  lister_List w (nsOf opts) appName = inr [s] →
  RunLatest s = Some envs →
  let o := run (Set_ defaultNamespace O appName values opts) w in
  let merged := values ∪ envsToMap envs in
  match factory w with
  | inl err => o = mkOutcome w [EvFactory (inl err)] (Returns (Some err))
  | inr client =>
      ∃ envs' : list EnvVar,
        calls o = [EvFactory (inr client); EvList (nsOf opts) appName (inr [s]);
                   EvUpdate client (nsOf opts) (setEnv s envs')
                     (services_Update client (nsOf opts) (setEnv s envs') w).2]
        ∧ NoDup (Name <$> envs')
        ∧ envsToMap envs' = merged
        ∧ envs' ≡ₚ pairsOf merged
        ∧ ∀ n, envsToMap envs' !! n
               = match values !! n with
                 | Some v => Some v
                 | None => lastValue n envs
                 end
  end.
Proof.
  intros Hname Hlist Hrl o merged. subst o merged.
  rewrite Set_shape, run_readModifyWrite, decide_False by done.
  destruct (factory w) as [err|client]; [reflexivity|].
  simpl. rewrite Hlist, Hrl.
  exists (mapToEnvs O (dedupeEnvs O values envs)). simpl.
  rewrite envsToMap_mapToEnvs, dedupeEnvs_union.
  split; [reflexivity|].
  split; [rewrite <- (dedupeEnvs_union O); apply mapToEnvs_NoDup|].
  split; [reflexivity|].
  split.
  - rewrite <- (dedupeEnvs_union O). apply mapToEnvs_perm.
  - intros n. rewrite lookup_union, envsToMap_lookup.
    destruct (values !! n), (lastValue n envs); reflexivity.
Qed.

(** C3 (as amended).  For a non-empty appName with exactly one matching
    resource [s], in run-latest mode with environment list [envs], Unset
    hands the platform, in its single Update call, the resource [s] with
    [envs] filtered: exactly the pairs whose name is not among [names], in
    their original order.  (Without a handle from the factory nothing is
    written.) *)
Theorem Unset_persists_filter appName names opts (w : W) (s : Service R) envs :
  appName ≠ "" →
  lister_List w (nsOf opts) appName = inr [s] →
  RunLatest s = Some envs →
  let s' := setEnv s (keepEnvs names envs) in
  run (Unset_ defaultNamespace appName names opts) w
  = match factory w with
    | inl err => mkOutcome w [EvFactory (inl err)] (Returns (Some err))
    | inr client =>
        let wr := services_Update client (nsOf opts) s' w in
        mkOutcome wr.1
          [EvFactory (inr client); EvList (nsOf opts) appName (inr [s]);
           EvUpdate client (nsOf opts) s' wr.2]
          (Returns match wr.2 with inl err => Some err | inr _ => None end)
    end.
Proof.
  intros Hname Hlist Hrl s'. subst s'.
  rewrite Unset_shape, run_readModifyWrite, decide_False by done.
  destruct (factory w) as [err|client]; [reflexivity|].
  simpl. rewrite Hlist, Hrl. by rewrite removeEnvs_keepEnvs.
Qed.

Lemma readModifyWrite_unknown g appName opts (w : W) ns a (l : list (Service R)) :
  length l ≠ 1 →
  EvList ns a (inr l) ∈ calls (run (readModifyWrite defaultNamespace g appName opts) w) →
  result (run (readModifyWrite (R:=R) (H:=H) defaultNamespace g appName opts) w)
  = Returns (Some (ErrUnknownApp appName)).
Proof.
  intros Hlen. rewrite run_readModifyWrite. case_decide; simpl.
  { by intros ?%elem_of_nil. }
  destruct (factory w) as [err|client]; simpl.
  { intros Hin%list_elem_of_singleton. discriminate. }
  destruct (lister_List w _ appName) as [err|l0] eqn:Hl.
  { simpl. rewrite !elem_of_cons, elem_of_nil. intros [?|[?|[]]]; discriminate. }
  destruct l0 as [|s [|s2 l0]]; simpl.
  - reflexivity.
  - destruct (RunLatest s); simpl; rewrite !elem_of_cons, elem_of_nil.
    + intros [?|[?|[?|[]]]]; simplify_eq/=; done.
    + intros [?|[?|[]]]; simplify_eq/=; done.
  - reflexivity.
Qed.

(** C4.  Whenever, in a run of List, Set or Unset, the App Lister returns a
    list of length zero or of length two or more, the operation fails with
    the unknown-application error for the app name, the same error in both
    cases. *)
Theorem no_single_match_is_unknown_app appName values names opts (w : W)
    ns a (l : list (Service R)) :
  (length l = 0 ∨ 2 ≤ length l)%nat →
  (EvList ns a (inr l) ∈ calls (run (List defaultNamespace appName opts) w) →
   result (run (List (R:=R) (H:=H) defaultNamespace appName opts) w)
   = Returns (inl (ErrUnknownApp appName)))
  ∧ (EvList ns a (inr l) ∈ calls (run (Set_ defaultNamespace O appName values opts) w) →
     result (run (Set_ (R:=R) (H:=H) defaultNamespace O appName values opts) w)
     = Returns (Some (ErrUnknownApp appName)))
  ∧ (EvList ns a (inr l) ∈ calls (run (Unset_ defaultNamespace appName names opts) w) →
     result (run (Unset_ (R:=R) (H:=H) defaultNamespace appName names opts) w)
     = Returns (Some (ErrUnknownApp appName))).
Proof.
  intros Hlen. assert (length l ≠ 1) as Hne by lia.
  split; [|split].
  - rewrite run_List. case_decide; simpl.
    { by intros ?%elem_of_nil. }
    intros Hin%list_elem_of_singleton. injection Hin as _ _ Hl. rewrite <- Hl.
    by destruct l as [|s [|s2 l]].
  - rewrite Set_shape. by apply readModifyWrite_unknown.
  - rewrite Unset_shape. by apply readModifyWrite_unknown.
Qed.

(** C5.  With the empty app name, List, Set and Unset are the program that
    returns the invalid-app-name error and calls nothing: run on any
    platform, they leave its state as it was and make no call to the App
    Lister, to the Serving Factory or to Update. *)
Theorem empty_app_name_calls_nothing values names opts :
  List (R:=R) (H:=H) defaultNamespace "" opts = Ret (inl ErrInvalidAppName)
  ∧ Set_ (R:=R) (H:=H) defaultNamespace O "" values opts = Ret (Some ErrInvalidAppName)
  ∧ Unset_ (R:=R) (H:=H) defaultNamespace "" names opts = Ret (Some ErrInvalidAppName)
  ∧ ∀ w : W,
      run (List defaultNamespace "" opts) w
      = mkOutcome w [] (Returns (inl ErrInvalidAppName))
      ∧ run (Set_ defaultNamespace O "" values opts) w
        = mkOutcome w [] (Returns (Some ErrInvalidAppName))
      ∧ run (Unset_ defaultNamespace "" names opts) w
        = mkOutcome w [] (Returns (Some ErrInvalidAppName)).
Proof. repeat split. Qed.

End Operations.

(* ===================================================================== *)
(** * The operations against a platform that keeps what it accepted       *)
(* ===================================================================== *)

Section Persistence.
Context {R H W : Type} `{!Platform R H W} `{!PlatformLaws R H W}.
Variable defaultNamespace : string.
Variable O : MapRange.

Local Abbreviation nsOf opts := (Namespace (toConfig defaultNamespace opts)).

Local Ltac none_accepted :=
  let ev := fresh "ev" in
  let Hev := fresh "Hev" in
  intros ev Hev; repeat (apply elem_of_cons in Hev as [->|Hev]; [simpl; tauto|]);
  by apply elem_of_nil in Hev.

Local Ltac unknown_app l :=
  intros [= <-]; split; [done|]; split; [none_accepted|];
  right; eexists [_], _; split; [reflexivity|];
  right; exists l; simpl; repeat split; lia.

Lemma readModifyWrite_failedCleanly g appName opts (w : W) e :
  result (run (readModifyWrite defaultNamespace g appName opts) w) = Returns (Some e) →
  failedCleanly appName w (run (readModifyWrite defaultNamespace g appName opts) w) e.
Proof.
  rewrite run_readModifyWrite. unfold failedCleanly. case_decide; simpl.
  { intros [= <-]. split; [done|]. split; [none_accepted|]. by left. }
  destruct (factory w) as [err|client]; simpl.
  { intros [= <-]. split; [done|]. split; [none_accepted|].
    right. by exists [], (EvFactory (inl err)). }
  destruct (lister_List w _ appName) as [err|l] eqn:Hl; simpl.
  { intros [= <-]. split; [done|]. split; [none_accepted|].
    right. eexists [_], _. split; [reflexivity|]. by left. }
  destruct l as [|s [|s2 l]]; simpl.
  - unknown_app (@nil (Service R)).
  - destruct (RunLatest s) as [envs|]; simpl; [|done].
    destruct (services_Update client _ _ w) as [w1 [err|s1]] eqn:Hu; simpl; [|done].
    intros [= <-]. split; [by apply update_rejected in Hu|].
    split; [none_accepted|].
    right. eexists [_; _], _. split; [reflexivity|]. done.
  - unknown_app (s :: s2 :: l).
Qed.

(** A run that does not return normally (an error or a panic) ends in the
    state it started from. *)
Lemma readModifyWrite_not_success g appName opts (w : W) :
  result (run (readModifyWrite defaultNamespace g appName opts) w) ≠ Returns None →
  final (run (readModifyWrite defaultNamespace g appName opts) w) = w.
Proof.
  rewrite run_readModifyWrite. case_decide; simpl; [done|].
  destruct (factory w) as [err|client]; simpl; [done|].
  destruct (lister_List w _ appName) as [err|[|s [|s2 l]]]; simpl; try done.
  destruct (RunLatest s) as [envs|]; simpl; [|done].
  destruct (services_Update client _ _ w) as [w1 [err|s1]] eqn:Hu; simpl; [|done].
  intros _. by apply update_rejected in Hu.
Qed.

(** C6.  A Set or an Unset that returns an error has changed nothing: the
    platform state is the one before the call, no update was accepted, and
    the error is the one the failing step reported (no handle from the
    Serving Factory, a fetch that failed or did not match exactly once, an
    update the platform rejected, or the empty app name before any call). *)
Theorem failed_write_changes_nothing appName values names opts (w : W) e :
  (result (run (Set_ defaultNamespace O appName values opts) w) = Returns (Some e) →
   failedCleanly appName w (run (Set_ defaultNamespace O appName values opts) w) e)
  ∧ (result (run (Unset_ defaultNamespace appName names opts) w) = Returns (Some e) →
     failedCleanly appName w (run (Unset_ defaultNamespace appName names opts) w) e).
Proof.
  rewrite Set_shape, Unset_shape. split; apply readModifyWrite_failedCleanly.
Qed.

(** A successful read-modify-write: what was fetched, what was written and
    where the platform went. *)
Lemma readModifyWrite_success g appName opts (w : W) :
  result (run (readModifyWrite defaultNamespace g appName opts) w) = Returns None →
  ∃ client s s1 envs,
    appName ≠ ""
    ∧ factory w = inr client
    ∧ lister_List w (nsOf opts) appName = inr [s]
    ∧ RunLatest s = Some envs
    ∧ services_Update client (nsOf opts) (setEnv s (g envs)) w
      = (final (run (readModifyWrite defaultNamespace g appName opts) w), inr s1)
    ∧ calls (run (readModifyWrite defaultNamespace g appName opts) w)
      = [EvFactory (inr client); EvList (nsOf opts) appName (inr [s]);
         EvUpdate client (nsOf opts) (setEnv s (g envs)) (inr s1)].
Proof.
  rewrite run_readModifyWrite. case_decide; simpl; [done|].
  destruct (factory w) as [err|client]; simpl; [done|].
  destruct (lister_List w _ appName) as [err|[|s [|s2 l]]]; simpl; try done.
  destruct (RunLatest s) as [envs|] eqn:Hrl; simpl; [|done].
  destruct (services_Update client _ _ w) as [w1 [err|s1]] eqn:Hu; simpl; [done|].
  intros _. by exists client, s, s1, envs.
Qed.

(** After a successful read-modify-write the same query returns one
    resource, in run-latest mode with the list that was computed. *)
Lemma readModifyWrite_then_listed g appName opts (w : W) :
  result (run (readModifyWrite defaultNamespace g appName opts) w) = Returns None →
  appName ≠ ""
  ∧ ∃ (s s1 : Service R) envs,
      lister_List w (nsOf opts) appName = inr [s]
      ∧ RunLatest s = Some envs
      ∧ lister_List (final (run (readModifyWrite defaultNamespace g appName opts) w))
          (nsOf opts) appName = inr [s1]
      ∧ RunLatest s1 = Some (g envs).
Proof.
  intros (client & s & s1 & envs & Hname & Hf & Hl & Hrl & Hu & _)%readModifyWrite_success.
  split; [done|].
  edestruct update_persisted as (s2 & Hl2 & Henv);
    [exact Hf|exact Hl| |exact Hu|]; [reflexivity|].
  by exists s, s2, envs.
Qed.

Lemma run_List_single appName opts (w : W) (s : Service R) envs :
  appName ≠ "" →
  lister_List w (nsOf opts) appName = inr [s] →
  RunLatest s = Some envs →
  result (run (List defaultNamespace appName opts) w) = Returns (inr (envsToMap envs)).
Proof.
  intros Hname Hl Hrl. rewrite run_List, decide_False by done. simpl.
  by rewrite Hl, Hrl.
Qed.

(** C7.  After a successful Set, a List of the same application in the same
    namespace, run on the state Set left, returns the mapping Set wrote:
    the pairs of the fetched resource collapsed into a mapping and overlaid
    with [values]. *)
Theorem Set_then_List appName values optsS optsL (w : W) :
  nsOf optsL = nsOf optsS →
  result (run (Set_ defaultNamespace O appName values optsS) w) = Returns None →
  ∃ (s : Service R) envs,
    lister_List w (nsOf optsS) appName = inr [s]
    ∧ RunLatest s = Some envs
    ∧ result (run (List defaultNamespace appName optsL)
                  (final (run (Set_ defaultNamespace O appName values optsS) w)))
      = Returns (inr (dedupeEnvs O values envs))
    ∧ dedupeEnvs O values envs = values ∪ envsToMap envs.
Proof.
  intros Hns. rewrite Set_shape.
  intros (Hname & s & s1 & envs & Hl & Hrl & Hl1 & Hrl1)%readModifyWrite_then_listed.
  exists s, envs. split; [done|]. split; [done|]. split; [|apply dedupeEnvs_union].
  rewrite (run_List_single _ _ _ s1 _ Hname) by (by rewrite ?Hns).
  by rewrite envsToMap_mapToEnvs.
Qed.

(** C8.  Unset is idempotent: the environment the platform holds for the
    application after two Unset calls in a row with the same names is the
    one it holds after the first; and after a first call that succeeded on
    the single matching resource [s], that environment is the list of [s]
    without the pairs named in [names]. *)
Theorem Unset_idempotent appName names opts (w : W) :
  let w1 := final (run (Unset_ defaultNamespace appName names opts) w) in
  let w2 := final (run (Unset_ defaultNamespace appName names opts) w1) in
  persistedEnv w2 (nsOf opts) appName = persistedEnv w1 (nsOf opts) appName
  ∧ ∀ s : Service R,
      lister_List w (nsOf opts) appName = inr [s] →
      result (run (Unset_ defaultNamespace appName names opts) w) = Returns None →
      ∃ envs,
        RunLatest s = Some envs
        ∧ persistedEnv w1 (nsOf opts) appName = Some (keepEnvs names envs).
Proof.
  intros w1 w2. subst w1 w2. rewrite !Unset_shape.
  set (U := readModifyWrite defaultNamespace (removeEnvs names) appName opts).
  assert (∀ w0 : W, result (run U w0) = Returns None →
            ∃ s0 s1 envs,
              lister_List w0 (nsOf opts) appName = inr [s0]
              ∧ RunLatest s0 = Some envs
              ∧ lister_List (final (run U w0)) (nsOf opts) appName = inr [s1]
              ∧ RunLatest s1 = Some (keepEnvs names envs)) as Hok.
  { intros w0 (_ & s & s1 & envs & Hl & Hrl & Hl1 & Hrl1)%readModifyWrite_then_listed.
    exists s, s1, envs. by rewrite <- removeEnvs_keepEnvs. }
  assert (∀ w0, result (run U w0) ≠ Returns None → final (run U w0) = w0) as Hfail
    by apply readModifyWrite_not_success.
  split.
  - destruct (decide (result (run U w) = Returns None)) as [H1|H1].
    2:{ rewrite (Hfail _ H1). by rewrite (Hfail _ H1). }
    destruct (Hok _ H1) as (s0 & s1 & envs & Hl0 & Hrl0 & Hl1 & Hrl1).
    destruct (decide (result (run U (final (run U w))) = Returns None)) as [H2|H2].
    2:{ by rewrite (Hfail _ H2). }
    destruct (Hok _ H2) as (s1' & s2 & envs1 & Hl1' & Hrl1' & Hl2 & Hrl2).
    unfold persistedEnv. rewrite Hl2, Hl1, Hrl2, Hrl1. f_equal.
    rewrite Hl1 in Hl1'. injection Hl1' as <-.
    rewrite Hrl1 in Hrl1'. injection Hrl1' as <-.
    by rewrite keepEnvs_idemp.
  - intros s Hl H1. destruct (Hok _ H1) as (s0 & s1 & envs & Hl0 & Hrl0 & Hl1 & Hrl1).
    rewrite Hl in Hl0. injection Hl0 as <-.
    exists envs. split; [done|]. unfold persistedEnv. by rewrite Hl1.
Qed.

(** C10.  Unset removes every occurrence of a name it is given.  For a
    non-empty appName, a handle from the factory and one matching resource
    [s] in run-latest mode with environment list [envs], whatever the number
    of pairs named [n] in [envs]: Unset issues its Update with the list
    removeEnvs computed, that list has no pair named [n], and when the
    platform accepts the update the environment it then holds for the
    application has no pair named [n]. *)
Theorem Unset_removes_every_occurrence appName names opts (w : W)
    (s : Service R) envs client n :
  appName ≠ "" →
  factory w = inr client →
  lister_List w (nsOf opts) appName = inr [s] →
  RunLatest s = Some envs →
  n ∈ names →
  let o := run (Unset_ defaultNamespace appName names opts) w in
  ∃ envs' r,
    calls o = [EvFactory (inr client); EvList (nsOf opts) appName (inr [s]);
               EvUpdate client (nsOf opts) (setEnv s envs') r]
    ∧ envs' = removeEnvs names envs
    ∧ filter (λ e, Name e = n) envs' = []
    ∧ (result o = Returns None →
       persistedEnv (final o) (nsOf opts) appName = Some envs').
Proof.
  intros Hname Hf Hl Hrl Hn o.
  exists (removeEnvs names envs),
         (services_Update client (nsOf opts) (setEnv s (removeEnvs names envs)) w).2.
  split; [|split; [done|split]].
  - subst o. rewrite Unset_shape, run_readModifyWrite, decide_False by done.
    by rewrite Hf; simpl; rewrite Hl, Hrl.
  - rewrite removeEnvs_keepEnvs. by apply keepEnvs_none_left.
  - subst o. rewrite Unset_shape.
    intros (_ & s0 & s1 & envs0 & Hl0 & Hrl0 & Hl1 & Hrl1)%readModifyWrite_then_listed.
    rewrite Hl in Hl0. injection Hl0 as <-.
    rewrite Hrl in Hrl0. injection Hrl0 as <-.
    unfold persistedEnv. by rewrite Hl1.
Qed.

End Persistence.

(* ===================================================================== *)
(** * What an update carries                                              *)
(* ===================================================================== *)

Section Frame.
Context {R H W : Type} `{!Platform R H W}.
Variable defaultNamespace : string.
Variable O : MapRange.

Local Abbreviation nsOf opts := (Namespace (toConfig defaultNamespace opts)).

Lemma readModifyWrite_updatedEnvOnly g appName opts (w : W) :
  result (run (readModifyWrite defaultNamespace g appName opts) w) = Returns None →
  updatedEnvOnly w (nsOf opts) appName
    (run (readModifyWrite defaultNamespace g appName opts) w).
Proof.
  intros (client & s & s1 & envs & Hname & Hf & Hl & Hrl & Hu & Hc)%readModifyWrite_success.
  by exists client, s, (setEnv s (g envs)), s1, envs, (g envs).
Qed.

(** C9.  A successful Set or Unset has passed to the platform's Update,
    once, the whole fetched resource with only its environment list
    replaced: every other field of the resource is as it was fetched. *)
Theorem successful_write_replaces_env_only appName values names opts (w : W) :
  (result (run (Set_ defaultNamespace O appName values opts) w) = Returns None →
   updatedEnvOnly w (nsOf opts) appName
     (run (Set_ defaultNamespace O appName values opts) w))
  ∧ (result (run (Unset_ defaultNamespace appName names opts) w) = Returns None →
     updatedEnvOnly w (nsOf opts) appName
       (run (Unset_ defaultNamespace appName names opts) w)).
Proof.
  rewrite Set_shape, Unset_shape. split; apply readModifyWrite_updatedEnvOnly.
Qed.

End Frame.

(* ===================================================================== *)
(** * The in-memory platform keeps what it accepted                       *)
(* ===================================================================== *)

Lemma filter_replace_matching (P : Service Meta → bool) (s : Service Meta)
    (l : list (Service Meta)) :
  P s = true →
  filter (λ x, P x = true) ((λ s0, if P s0 then s else s0) <$> l)
  = (λ _, s) <$> filter (λ x, P x = true) l.
Proof.
  intros Hs. induction l as [|x l IH]; [done|].
  rewrite fmap_cons, !filter_cons. destruct (P x) eqn:Hx.
  - rewrite decide_True by done. rewrite decide_True by done.
    by rewrite fmap_cons, IH.
  - rewrite decide_False by (rewrite Hx; done).
    rewrite decide_False by done. exact IH.
Qed.

#[global] Instance fake_laws : PlatformLaws Meta unit Fake.
Proof.
  split.
  - intros c ns s w w' e. simpl. unfold fakeUpdate.
    destruct (updateErr w); [by intros [= <- _]|].
    destruct (existsb _ _); [discriminate|]. by intros [= <- _].
  - intros c ns app s0 s s' w w' _. simpl. unfold fakeList, fakeUpdate.
    destruct (listErr w) eqn:Hle; [discriminate|]. intros [= Hl] Hrest.
    destruct (updateErr w); [discriminate|].
    destruct (existsb _ _); [|discriminate]. intros [= <- <-]. simpl.
    exists s. split; [|done]. f_equal.
    assert (s0 ∈ filter (λ x, matches ns app x = true) (stored w)) as Hin
      by (rewrite Hl; apply list_elem_of_singleton; done).
    apply list_elem_of_filter in Hin as [Hm _].
    assert (metaName (Rest s) = app) as Hnm.
    { rewrite Hrest. unfold matches in Hm. by apply bool_decide_eq_true in Hm as [_ ?]. }
    rewrite Hnm.
    rewrite (filter_replace_matching (matches ns app)), Hl; [done|].
    unfold matches in *. by rewrite Hrest.
Qed.

(* ===================================================================== *)
(** * The operations on the in-memory platform                            *)
(* ===================================================================== *)

(** List on a list with a repeated name: the last pair of "A" is returned. *)
Lemma List_returns_env_mapping_witness :
  "app" ≠ ""
  ∧ lister_List (store1 envABA) "default" "app" = inr [app1 envABA]
  ∧ RunLatest (app1 envABA) = Some envABA
  ∧ run (List (R:=Meta) (H:=unit) "default" "app" []) (store1 envABA)
    = mkOutcome (store1 envABA) [EvList "default" "app" (inr [app1 envABA])]
        (Returns (inr {["A" := "3"; "B" := "2"]})).
Proof.
  assert ("app" ≠ "") as H1 by done.
  assert (lister_List (store1 envABA) "default" "app" = inr [app1 envABA]) as H2
    by reflexivity.
  assert (RunLatest (app1 envABA) = Some envABA) as H3 by reflexivity.
  split; [exact H1|]. split; [exact H2|]. split; [exact H3|].
  destruct (List_returns_env_mapping (R:=Meta) (H:=unit) "default" "app" []
              (store1 envABA) (app1 envABA) envABA H1 H2 H3) as (m & Hrun & Hm & _).
  rewrite Hrun, Hm. reflexivity.
Defined.

(** One match that is not in run-latest mode: List panics, so it does not
    succeed with a mapping. *)
Lemma List_panics_without_RunLatest :
  "app" ≠ ""
  ∧ lister_List storePinned "default" "app" = inr [pinned]
  ∧ run (List (R:=Meta) (H:=unit) "default" "app" []) storePinned
    = mkOutcome storePinned [EvList "default" "app" (inr [pinned])] Panics
  ∧ ¬ ∃ m : gmap string string,
        result (run (List (R:=Meta) (H:=unit) "default" "app" []) storePinned)
        = Returns (inr m).
Proof.
  split; [done|]. split; [reflexivity|]. split; [reflexivity|].
  intros [m Hm]. discriminate Hm.
Qed.

(** Set {"A":"1"} over {"A":"0","B":"2"} writes {"A":"1","B":"2"}. *)
Lemma Set_persists_merge_witness :
  "app" ≠ ""
  ∧ lister_List (store1 envAB) "default" "app" = inr [app1 envAB]
  ∧ RunLatest (app1 envAB) = Some envAB
  ∧ ∃ envs' : list EnvVar,
      (∃ r, last (calls (run (Set_ "default" keyOrder "app" {["A" := "1"]} [])
                             (store1 envAB)))
            = Some (EvUpdate tt "default" (setEnv (app1 envAB) envs') r))
      ∧ envsToMap envs' = {["A" := "1"; "B" := "2"]}.
Proof.
  assert ("app" ≠ "") as H1 by done.
  assert (lister_List (store1 envAB) "default" "app" = inr [app1 envAB]) as H2
    by reflexivity.
  assert (RunLatest (app1 envAB) = Some envAB) as H3 by reflexivity.
  split; [exact H1|]. split; [exact H2|]. split; [exact H3|].
  destruct (Set_persists_merge (R:=Meta) (H:=unit) "default" keyOrder "app"
              {["A" := "1"]} [] (store1 envAB) (app1 envAB) envAB H1 H2 H3)
    as (envs' & Hcalls & _ & Hmap & _).
  exists envs'. split.
  - rewrite Hcalls. eexists. reflexivity.
  - rewrite Hmap. reflexivity.
Defined.

(** One match that is not in run-latest mode, with a handle: Set panics
    after the listing and issues no Update. *)
Lemma Set_panics_without_RunLatest :
  "app" ≠ ""
  ∧ lister_List storePinned "default" "app" = inr [pinned]
  ∧ factory storePinned = inr tt
  ∧ run (Set_ (R:=Meta) (H:=unit) "default" keyOrder "app" {["A" := "1"]} [])
        storePinned
    = mkOutcome storePinned
        [EvFactory (inr tt); EvList "default" "app" (inr [pinned])] Panics
  ∧ ¬ ∃ client ns (s' : Service Meta) r,
        EvUpdate client ns s' r
        ∈ calls (run (Set_ (R:=Meta) (H:=unit) "default" keyOrder "app"
                           {["A" := "1"]} []) storePinned).
Proof.
  split; [done|]. split; [reflexivity|]. split; [reflexivity|].
  split; [reflexivity|].
  intros (client & ns & s' & r & Hin).
  apply elem_of_cons in Hin as [Hin|Hin]; [discriminate Hin|].
  apply elem_of_cons in Hin as [Hin|Hin]; [discriminate Hin|].
  by apply elem_of_nil in Hin.
Qed.

(** Unset ["B"] over [A=1; B=2; C=3] writes [A=1; C=3]. *)
Lemma Unset_persists_filter_witness :
  "app" ≠ ""
  ∧ lister_List (store1 envABC) "default" "app" = inr [app1 envABC]
  ∧ RunLatest (app1 envABC) = Some envABC
  ∧ run (Unset_ (R:=Meta) (H:=unit) "default" "app" ["B"] []) (store1 envABC)
    = mkOutcome (store1 [mkEnvVar "A" "1"; mkEnvVar "C" "3"])
        [EvFactory (inr tt); EvList "default" "app" (inr [app1 envABC]);
         EvUpdate tt "default" (app1 [mkEnvVar "A" "1"; mkEnvVar "C" "3"])
           (inr (app1 [mkEnvVar "A" "1"; mkEnvVar "C" "3"]))]
        (Returns None).
Proof.
  assert ("app" ≠ "") as H1 by done.
  assert (lister_List (store1 envABC) "default" "app" = inr [app1 envABC]) as H2
    by reflexivity.
  assert (RunLatest (app1 envABC) = Some envABC) as H3 by reflexivity.
  split; [exact H1|]. split; [exact H2|]. split; [exact H3|].
  rewrite (Unset_persists_filter (R:=Meta) (H:=unit) "default" "app" ["B"] []
             (store1 envABC) (app1 envABC) envABC H1 H2 H3).
  reflexivity.
Defined.

(** One match that is not in run-latest mode, with a handle: Unset panics
    after the listing and issues no Update. *)
Lemma Unset_panics_without_RunLatest :
  "app" ≠ ""
  ∧ lister_List storePinned "default" "app" = inr [pinned]
  ∧ factory storePinned = inr tt
  ∧ run (Unset_ (R:=Meta) (H:=unit) "default" "app" ["B"] []) storePinned
    = mkOutcome storePinned
        [EvFactory (inr tt); EvList "default" "app" (inr [pinned])] Panics
  ∧ ¬ ∃ client ns (s' : Service Meta) r,
        EvUpdate client ns s' r
        ∈ calls (run (Unset_ (R:=Meta) (H:=unit) "default" "app" ["B"] [])
                     storePinned).
Proof.
  split; [done|]. split; [reflexivity|]. split; [reflexivity|].
  split; [reflexivity|].
  intros (client & ns & s' & r & Hin).
  apply elem_of_cons in Hin as [Hin|Hin]; [discriminate Hin|].
  apply elem_of_cons in Hin as [Hin|Hin]; [discriminate Hin|].
  by apply elem_of_nil in Hin.
Qed.

(** No match and two matches: the same unknown-app error from all three. *)
Lemma no_single_match_is_unknown_app_witness :
  (length (@nil (Service Meta)) = 0 ∨ 2 ≤ length (@nil (Service Meta)))%nat
  ∧ result (run (List (R:=Meta) (H:=unit) "default" "app" []) store0)
    = Returns (inl (ErrUnknownApp "app"))
  ∧ result (run (Set_ (R:=Meta) (H:=unit) "default" keyOrder "app" {["A" := "1"]} [])
                store0)
    = Returns (Some (ErrUnknownApp "app"))
  ∧ result (run (Unset_ (R:=Meta) (H:=unit) "default" "app" ["A"] []) (store2 envAB))
    = Returns (Some (ErrUnknownApp "app")).
Proof.
  assert (length (@nil (Service Meta)) = 0 ∨ 2 ≤ length (@nil (Service Meta)))%nat
    as H0 by (left; reflexivity).
  assert (length [app1 envAB; app1 envAB] = 0 ∨ 2 ≤ length [app1 envAB; app1 envAB])%nat
    as H2 by (right; simpl; lia).
  split; [exact H0|].
  destruct (no_single_match_is_unknown_app (R:=Meta) (H:=unit) "default" keyOrder
              "app" {["A" := "1"]} ["A"] [] store0 "default" "app" [] H0)
    as (HL & HS & _).
  destruct (no_single_match_is_unknown_app (R:=Meta) (H:=unit) "default" keyOrder
              "app" {["A" := "1"]} ["A"] [] (store2 envAB) "default" "app"
              [app1 envAB; app1 envAB] H2)
    as (_ & _ & HU).
  split; [apply HL; apply list_elem_of_here|].
  split; [apply HS|apply HU]; apply list_elem_of_further, list_elem_of_here.
Defined.

(** A Set the platform rejects returns the platform's error and leaves the
    store as it was. *)
Lemma failed_write_changes_nothing_witness :
  result (run (Set_ (R:=Meta) (H:=unit) "default" keyOrder "app" {["A" := "1"]} [])
              (rejecting envAB))
  = Returns (Some (ErrUpstream "conflict"))
  ∧ final (run (Set_ (R:=Meta) (H:=unit) "default" keyOrder "app" {["A" := "1"]} [])
               (rejecting envAB))
    = rejecting envAB
  ∧ final (run (Unset_ (R:=Meta) (H:=unit) "default" "app" ["A"] []) (rejecting envAB))
    = rejecting envAB.
Proof.
  destruct (failed_write_changes_nothing (R:=Meta) (H:=unit) "default" keyOrder
              "app" {["A" := "1"]} ["A"] [] (rejecting envAB) (ErrUpstream "conflict"))
    as [HS HU].
  split; [reflexivity|]. split.
  - destruct (HS eq_refl) as [Hfinal _]. exact Hfinal.
  - destruct (HU eq_refl) as [Hfinal _]. exact Hfinal.
Defined.

(** Set {"A":"1"} over {"A":"0","B":"2"}, then List: {"A":"1","B":"2"}. *)
Lemma Set_then_List_witness :
  Namespace (toConfig "default" [WithNamespace "default"])
  = Namespace (toConfig "default" [])
  ∧ result (run (Set_ (R:=Meta) (H:=unit) "default" reverseOrder "app" {["A" := "1"]} [])
                (store1 envAB))
    = Returns None
  ∧ result (run (List "default" "app" [WithNamespace "default"])
                (final (run (Set_ (R:=Meta) (H:=unit) "default" reverseOrder "app"
                                  {["A" := "1"]} [])
                            (store1 envAB))))
    = Returns (inr {["A" := "1"; "B" := "2"]}).
Proof.
  assert (Namespace (toConfig "default" [WithNamespace "default"])
          = Namespace (toConfig "default" [])) as H1 by reflexivity.
  assert (result (run (Set_ (R:=Meta) (H:=unit) "default" reverseOrder "app"
                            {["A" := "1"]} [])
                      (store1 envAB)) = Returns None) as H2 by reflexivity.
  split; [exact H1|]. split; [exact H2|].
  destruct (Set_then_List (R:=Meta) (H:=unit) "default" reverseOrder "app"
              {["A" := "1"]} [] [WithNamespace "default"] (store1 envAB) H1 H2)
    as (s & envs & Hl & Hrl & Hres & _).
  rewrite Hres. injection Hl as <-. injection Hrl as <-. reflexivity.
Defined.

(** Unset ["B"] twice over [A=1; B=2; C=3]: [A=1; C=3] after the first call
    and after the second. *)
Lemma Unset_idempotent_witness :
  let w1 := final (run (Unset_ (R:=Meta) (H:=unit) "default" "app" ["B"] [])
                       (store1 envABC)) in
  let w2 := final (run (Unset_ (R:=Meta) (H:=unit) "default" "app" ["B"] []) w1) in
  persistedEnv w2 "default" "app" = persistedEnv w1 "default" "app"
  ∧ persistedEnv w1 "default" "app" = Some [mkEnvVar "A" "1"; mkEnvVar "C" "3"].
Proof.
  intros w1 w2.
  destruct (Unset_idempotent (R:=Meta) (H:=unit) "default" "app" ["B"] []
              (store1 envABC)) as [Hsame Hfirst].
  split; [exact Hsame|].
  destruct (Hfirst (app1 envABC) eq_refl eq_refl) as (envs & Hrl & Hp).
  injection Hrl as <-. exact Hp.
Defined.

(** A successful Set and a successful Unset each pass the fetched resource
    with a new environment list and nothing else changed. *)
Lemma successful_write_replaces_env_only_witness :
  updatedEnvOnly (store1 envAB) "default" "app"
    (run (Set_ (R:=Meta) (H:=unit) "default" keyOrder "app" {["A" := "1"]} [])
         (store1 envAB))
  ∧ updatedEnvOnly (store1 envAB) "default" "app"
      (run (Unset_ (R:=Meta) (H:=unit) "default" "app" ["A"] []) (store1 envAB)).
Proof.
  destruct (successful_write_replaces_env_only (R:=Meta) (H:=unit) "default" keyOrder
              "app" {["A" := "1"]} ["A"] [] (store1 envAB)) as [HS HU].
  split; [exact (HS eq_refl)|exact (HU eq_refl)].
Defined.

(** Unset ["A"] over [A=1; B=2; A=3], a list with two pairs named "A":
    the Update carries [B=2], and [B=2] is what the platform then holds. *)
Lemma Unset_removes_every_occurrence_witness :
  "app" ≠ ""
  ∧ factory (store1 envABA) = inr tt
  ∧ lister_List (store1 envABA) "default" "app" = inr [app1 envABA]
  ∧ RunLatest (app1 envABA) = Some envABA
  ∧ "A" ∈ ["A"]
  ∧ calls (run (Unset_ (R:=Meta) (H:=unit) "default" "app" ["A"] []) (store1 envABA))
    = [EvFactory (inr tt); EvList "default" "app" (inr [app1 envABA]);
       EvUpdate tt "default" (app1 [mkEnvVar "B" "2"]) (inr (app1 [mkEnvVar "B" "2"]))]
  ∧ persistedEnv
      (final (run (Unset_ (R:=Meta) (H:=unit) "default" "app" ["A"] [])
                  (store1 envABA)))
      "default" "app"
    = Some [mkEnvVar "B" "2"].
Proof.
  assert ("app" ≠ "") as H1 by done.
  assert (factory (store1 envABA) = inr tt) as H2 by reflexivity.
  assert (lister_List (store1 envABA) "default" "app" = inr [app1 envABA]) as H3
    by reflexivity.
  assert (RunLatest (app1 envABA) = Some envABA) as H4 by reflexivity.
  assert ("A" ∈ ["A"]) as H5 by apply list_elem_of_here.
  split; [exact H1|]. split; [exact H2|]. split; [exact H3|]. split; [exact H4|].
  split; [exact H5|].
  destruct (Unset_removes_every_occurrence (R:=Meta) (H:=unit) "default" "app"
              ["A"] [] (store1 envABA) (app1 envABA) envABA tt "A" H1 H2 H3 H4 H5)
    as (envs' & r & Hcalls & Henvs & _ & Hpersisted).
  split; [reflexivity|].
  pose proof (Hpersisted eq_refl) as Hp. rewrite Henvs in Hp. exact Hp.
Defined.

(* ===================================================================== *)
(** * Further properties of the helpers                                   *)
(* ===================================================================== *)

Section HelperFacts.
Implicit Types (m values : gmap string string) (envs : list EnvVar).
Implicit Types (names : list string).

Lemma lastValue_is_Some n envs : is_Some (lastValue n envs) ↔ n ∈ Name <$> envs.
Proof.
  unfold lastValue. rewrite fmap_is_Some, list_elem_of_fmap. split.
  - intros [e He]. apply last_Some_elem_of, list_elem_of_filter in He as [? ?].
    by exists e.
  - intros (e & -> & He).
    assert (e ∈ filter (λ e0, Name e0 = Name e) envs) as Hin
      by (by apply list_elem_of_filter).
    destruct (last (filter _ envs)) as [x|] eqn:Hlast; [by exists x|].
    apply last_None in Hlast. rewrite Hlast in Hin. by apply elem_of_nil in Hin.
Qed.

Lemma keepEnvs_other names envs n :
  n ∉ names →
  filter (λ e, Name e = n) (keepEnvs names envs) = filter (λ e, Name e = n) envs.
Proof.
  intros Hn. unfold keepEnvs. rewrite list_filter_filter.
  apply list_filter_iff. intros e. split; [tauto|]. intros ->. done.
Qed.

Lemma envVar_eta (e : EnvVar) : ValueFrom e = None → mkEnvVar (Name e) (Value e) = e.
Proof. destruct e as [n v f]. simpl. by intros ->. Qed.

(** X1.  Reading back what mapToEnvs wrote, with the loop of List, gives
    the mapping again, for every iteration order: every name looks up to
    the value the mapping had, and to nothing if the mapping had none. *)
Theorem mapToEnvs_read_back (O : MapRange) m :
  foldl (λ (results : gmap string string) env, <[Name env := Value env]> results)
        ∅ (mapToEnvs O m) = m
  ∧ ∀ n, lastValue n (mapToEnvs O m) = m !! n.
Proof.
  split; [apply envsToMap_mapToEnvs|].
  intros n. by rewrite <- envsToMap_lookup, envsToMap_mapToEnvs.
Qed.

(** X2.  mapToEnvs writes exactly one pair per entry of the mapping: the
    list is as long as the mapping is large, no name occurs twice, a pair
    is in the list exactly when the mapping sends its name to its value and
    the pair has no ValueFrom, and the empty mapping gives the empty (nil)
    list. *)
Theorem mapToEnvs_entries (O : MapRange) m :
  length (mapToEnvs O m) = size m
  ∧ NoDup (Name <$> mapToEnvs O m)
  ∧ (∀ e, e ∈ mapToEnvs O m ↔ m !! Name e = Some (Value e) ∧ ValueFrom e = None)
  ∧ mapToEnvs O ∅ = [].
Proof.
  split; [|split; [apply mapToEnvs_NoDup|split]].
  - rewrite mapToEnvs_fmap, length_fmap, (range_perm O m). apply length_map_to_list.
  - intros e. rewrite (mapToEnvs_perm O m). unfold pairsOf.
    rewrite list_elem_of_fmap. split.
    + intros ([n v] & -> & Hin). simpl. split; [|done].
      by apply elem_of_map_to_list.
    + intros [Hin Hfrom]. exists (Name e, Value e). simpl.
      split; [by rewrite envVar_eta|by apply elem_of_map_to_list].
  - rewrite mapToEnvs_fmap.
    assert (range O ∅ = []) as ->; [|done].
    apply Permutation_nil_r. rewrite (range_perm O ∅). by rewrite map_to_list_empty.
Qed.

(** X3.  The mapping dedupeEnvs builds does not depend on the order in
    which Go ranges over [values]: a name of [values] carries the caller's
    value, any other name the value of its last pair in [envs]. *)
Theorem dedupeEnvs_any_order (O1 O2 : MapRange) values envs :
  dedupeEnvs O1 values envs = dedupeEnvs O2 values envs
  ∧ ∀ n, dedupeEnvs O1 values envs !! n
         = match values !! n with
           | Some v => Some v
           | None => lastValue n envs
           end.
Proof.
  rewrite !dedupeEnvs_union. split; [done|]. intros n.
  rewrite lookup_union, envsToMap_lookup.
  by destruct (values !! n), (lastValue n envs).
Qed.

(** X4.  dedupeEnvs neither drops nor invents a name: the merged mapping
    is defined exactly on the names of [values] and the names of the pairs
    of [envs]. *)
Theorem dedupeEnvs_names (O : MapRange) values envs n :
  is_Some (dedupeEnvs O values envs !! n)
  ↔ is_Some (values !! n) ∨ n ∈ Name <$> envs.
Proof.
  rewrite dedupeEnvs_union, lookup_union, <- lastValue_is_Some, envsToMap_lookup.
  destruct (values !! n) as [v|], (lastValue n envs) as [v'|]; simpl;
    unfold is_Some; (split; [intros [x Hx]|intros [[x Hx]|[x Hx]]]);
    simplify_eq/=; eauto.
Qed.

(** X5.  The edges of dedupeEnvs: with no caller values the result is the
    existing pairs read as a mapping, and with no existing pairs it is the
    caller's mapping itself. *)
Theorem dedupeEnvs_edges (O : MapRange) values envs :
  dedupeEnvs O ∅ envs = envsToMap envs
  ∧ dedupeEnvs O values [] = values.
Proof.
  rewrite !dedupeEnvs_union. split.
  - by rewrite (left_id_L ∅ (∪)).
  - unfold envsToMap. simpl. by rewrite (right_id_L ∅ (∪)).
Qed.

(** X6.  removeEnvs changes nothing exactly when no pair of the list is
    named in [names]; in particular an empty [names] returns the list as it
    is, and the empty list stays empty. *)
Theorem removeEnvs_unchanged names envs :
  (removeEnvs names envs = envs ↔ ∀ e, e ∈ envs → Name e ∉ names)
  ∧ removeEnvs [] envs = envs
  ∧ removeEnvs names [] = [].
Proof.
  assert (∀ ns l, removeEnvs ns l = l ↔ ∀ e, e ∈ l → Name e ∉ ns) as Hiff.
  { intros ns l. rewrite removeEnvs_keepEnvs. unfold keepEnvs. split.
    - intros Heq e He. rewrite <- Heq in He.
      by apply list_elem_of_filter in He as [? _].
    - intros Hall. induction l as [|x l IH]; [done|].
      rewrite filter_cons, decide_True by (apply Hall; left).
      f_equal. apply IH. intros e He. apply Hall. by right. }
  split; [apply Hiff|]. split; [|reflexivity].
  apply Hiff. intros e _. apply not_elem_of_nil.
Qed.

(** X7.  removeEnvs leaves the pairs of every other name alone: for a name
    that is not in [names] the pairs of that name are the same, in the same
    order, before and after; and the result is a sublist of the input, so
    no pair is added, changed or moved. *)
Theorem removeEnvs_keeps_others names envs :
  (∀ n, n ∉ names →
        filter (λ e, Name e = n) (removeEnvs names envs)
        = filter (λ e, Name e = n) envs)
  ∧ removeEnvs names envs `sublist_of` envs.
Proof.
  rewrite removeEnvs_keepEnvs. split.
  - intros n Hn. by apply keepEnvs_other.
  - apply sublist_filter.
Qed.

(** X8.  Two removals in a row are one removal of both name lists, in
    either order. *)
Theorem removeEnvs_compose names1 names2 envs :
  removeEnvs names1 (removeEnvs names2 envs) = removeEnvs (names1 ++ names2) envs
  ∧ removeEnvs names1 (removeEnvs names2 envs)
    = removeEnvs names2 (removeEnvs names1 envs).
Proof.
  rewrite !removeEnvs_keepEnvs. unfold keepEnvs. rewrite !list_filter_filter.
  split; apply list_filter_iff; intros e; rewrite ?elem_of_app; tauto.
Qed.

(** X9.  removeEnvs reads [names] as a set: two name lists with the same
    members (whatever their order and repetitions) remove the same pairs. *)
Theorem removeEnvs_names_as_set names1 names2 envs :
  (∀ n, n ∈ names1 ↔ n ∈ names2) →
  removeEnvs names1 envs = removeEnvs names2 envs.
Proof.
  intros Hsame. rewrite !removeEnvs_keepEnvs. unfold keepEnvs.
  apply list_filter_iff. intros e. by rewrite Hsame.
Qed.

End HelperFacts.

(* ===================================================================== *)
(** * Further properties of the operations, on any platform               *)
(* ===================================================================== *)

Section OperationFacts.
Context {R H W : Type} `{!Platform R H W}.
Variable defaultNamespace : string.
Variable O : MapRange.

Local Abbreviation nsOf opts := (Namespace (toConfig defaultNamespace opts)).

(** X10.  List only reads: it never asks the Serving Factory for a handle
    and never issues an Update.  With the empty app name it calls nothing;
    otherwise its one call is the listing, in the configured namespace and
    for the given name, and the platform state is as before. *)
Theorem List_only_lists appName opts (w : W) :
  final (run (List defaultNamespace appName opts) w) = w
  ∧ (appName = "" ∧ calls (run (List (R:=R) (H:=H) defaultNamespace appName opts) w) = []
     ∨ appName ≠ ""
       ∧ calls (run (List defaultNamespace appName opts) w)
         = [EvList (nsOf opts) appName (lister_List w (nsOf opts) appName)]).
Proof.
  rewrite run_List. case_decide; simpl; [by split; [|left]|by split; [|right]].
Qed.

Lemma readModifyWrite_lister_error g appName opts (w : W) ns a e :
  EvList ns a (inl e) ∈ calls (run (readModifyWrite defaultNamespace g appName opts) w) →
  result (run (readModifyWrite (R:=R) (H:=H) defaultNamespace g appName opts) w)
  = Returns (Some e).
Proof.
  rewrite run_readModifyWrite. case_decide; simpl.
  { by intros ?%elem_of_nil. }
  destruct (factory w) as [err|client]; simpl.
  { intros Hin%list_elem_of_singleton. discriminate. }
  destruct (lister_List w _ appName) as [err|[|s [|s2 l]]]; simpl.
  - rewrite !elem_of_cons, elem_of_nil. intros [?|[?|[]]]; simplify_eq. done.
  - rewrite !elem_of_cons, elem_of_nil. intros [?|[?|[]]]; discriminate.
  - destruct (RunLatest s); simpl; rewrite !elem_of_cons, elem_of_nil.
    + intros [?|[?|[?|[]]]]; discriminate.
    + intros [?|[?|[]]]; discriminate.
  - rewrite !elem_of_cons, elem_of_nil. intros [?|[?|[]]]; discriminate.
Qed.

(** X11.  An error of the App Lister itself is returned as it is: whenever
    the listing fails with [e] in a run of List, Set or Unset, the operation
    returns [e], not the unknown-app error. *)
Theorem lister_error_is_returned appName values names opts (w : W) ns a e :
  (EvList ns a (inl e) ∈ calls (run (List defaultNamespace appName opts) w) →
   result (run (List (R:=R) (H:=H) defaultNamespace appName opts) w)
   = Returns (inl e))
  ∧ (EvList ns a (inl e) ∈ calls (run (Set_ defaultNamespace O appName values opts) w) →
     result (run (Set_ (R:=R) (H:=H) defaultNamespace O appName values opts) w)
     = Returns (Some e))
  ∧ (EvList ns a (inl e) ∈ calls (run (Unset_ defaultNamespace appName names opts) w) →
     result (run (Unset_ (R:=R) (H:=H) defaultNamespace appName names opts) w)
     = Returns (Some e)).
Proof.
  split; [|split].
  - rewrite run_List. case_decide; simpl.
    { by intros ?%elem_of_nil. }
    intros Hin%list_elem_of_singleton. injection Hin as _ _ Hl. by rewrite <- Hl.
  - rewrite Set_shape. apply readModifyWrite_lister_error.
  - rewrite Unset_shape. apply readModifyWrite_lister_error.
Qed.

Lemma readModifyWrite_writeLog g appName opts (w : W) :
  writeLog (nsOf opts) appName
    (calls (run (readModifyWrite (R:=R) (H:=H) defaultNamespace g appName opts) w)).
Proof.
  rewrite run_readModifyWrite. unfold writeLog. case_decide; simpl; [by left|].
  destruct (factory w) as [err|client]; simpl; [right; left; by exists err|].
  destruct (lister_List w _ appName) as [err|[|s [|s2 l]]]; simpl.
  - right; right; left. by exists client, (inl err).
  - right; right; left. by exists client, (inr []).
  - destruct (RunLatest s) as [envs|] eqn:Hrl; simpl.
    + right; right; right. eexists client, s, _, _.
      split; [reflexivity|]. by rewrite Hrl.
    + right; right; left. exists client, (inr [s]). split; [done|].
      by intros s0 [= <-].
  - right; right; left. by exists client, (inr (s :: s2 :: l)).
Qed.

(** X12.  On any platform, and whether they succeed or fail, Set and Unset
    call in a fixed order and write at most once: the factory first, the
    listing only with a handle, and the Update only after a listing of
    exactly one resource in run-latest mode, as the last call, through that
    handle, in the namespace of the listing, on that resource with every
    field but the environment list as fetched. *)
Theorem write_calls_in_order appName values names opts (w : W) :
  writeLog (nsOf opts) appName
    (calls (run (Set_ (R:=R) (H:=H) defaultNamespace O appName values opts) w))
  ∧ writeLog (nsOf opts) appName
      (calls (run (Unset_ (R:=R) (H:=H) defaultNamespace appName names opts) w)).
Proof.
  rewrite Set_shape, Unset_shape. split; apply readModifyWrite_writeLog.
Qed.

(** X13.  The factory is asked before the application is looked up: when
    the Serving Factory fails with [e] on a non-empty app name, Set and
    Unset return [e] after that one call, whatever the App Lister would have
    answered. *)
Theorem factory_error_comes_first appName values names opts (w : W) e :
  appName ≠ "" →
  factory w = inl e →
  run (Set_ (R:=R) defaultNamespace O appName values opts) w
  = mkOutcome w [EvFactory (inl e)] (Returns (Some e))
  ∧ run (Unset_ (R:=R) defaultNamespace appName names opts) w
    = mkOutcome w [EvFactory (inl e)] (Returns (Some e)).
Proof.
  intros Hname Hf.
  rewrite Set_shape, Unset_shape, !run_readModifyWrite, !decide_False by done.
  by rewrite Hf.
Qed.

(** X14.  Unset of names the application does not have is not an error and
    not skipped: with a handle and one matching resource [s] in run-latest
    mode, none of whose pairs is named in [names] (an empty [names]
    included), Unset still issues the Update, and passes the fetched
    resource exactly as it was. *)
Theorem Unset_absent_names_rewrites appName names opts (w : W)
    (s : Service R) envs client :
  appName ≠ "" →
  factory w = inr client →
  lister_List w (nsOf opts) appName = inr [s] →
  RunLatest s = Some envs →
  (∀ e, e ∈ envs → Name e ∉ names) →
  let wr := services_Update client (nsOf opts) s w in
  run (Unset_ defaultNamespace appName names opts) w
  = mkOutcome wr.1
      [EvFactory (inr client); EvList (nsOf opts) appName (inr [s]);
       EvUpdate client (nsOf opts) s wr.2]
      (Returns match wr.2 with inl err => Some err | inr _ => None end).
Proof.
  intros Hname Hf Hl Hrl Habsent wr. subst wr.
  rewrite Unset_shape, run_readModifyWrite, decide_False by done.
  rewrite Hf. simpl. rewrite Hl, Hrl.
  assert (∀ l, (∀ e, e ∈ l → Name e ∉ names) → removeEnvs names l = l) as Hid.
  { intros l Hall. rewrite removeEnvs_keepEnvs. unfold keepEnvs.
    induction l as [|x l IH]; [done|].
    rewrite filter_cons, decide_True by (apply Hall; left).
    f_equal. apply IH. intros e He. apply Hall. by right. }
  rewrite (Hid envs Habsent).
  assert (setEnv s envs = s) as ->.
  { destruct s as [rest rl]. simpl in Hrl. by subst rl. }
  reflexivity.
Qed.

End OperationFacts.

Section MappingFacts.
Implicit Types (m values : gmap string string) (envs : list EnvVar).

Lemma foldl_insert_env_size envs m :
  (size (foldl (λ (acc : gmap string string) e, <[Name e := Value e]> acc) m envs)
   ≤ size m + length envs)%nat.
Proof.
  revert m. induction envs as [|e envs IH]; intros m; simpl; [lia|].
  etrans; [apply IH|]. rewrite map_size_insert. destruct (m !! Name e); simpl; lia.
Qed.

Lemma envsToMap_size envs : (size (envsToMap envs) ≤ length envs)%nat.
Proof.
  unfold envsToMap. etrans; [apply foldl_insert_env_size|].
  by rewrite map_size_empty.
Qed.

(** Reading a list as a mapping looks at names and values only. *)
Lemma envsToMap_strip envs :
  envsToMap ((λ e, mkEnvVar (Name e) (Value e)) <$> envs) = envsToMap envs.
Proof.
  unfold envsToMap. generalize (∅ : gmap string string).
  induction envs as [|e envs IH]; intros acc; simpl; [done|]. by rewrite IH.
Qed.

(** The entries of the mapping a list without a repeated name reads as
    are, up to order, the names and values of its pairs. *)
Lemma pairsOf_envsToMap envs :
  NoDup (Name <$> envs) →
  pairsOf (envsToMap envs) ≡ₚ (λ e, mkEnvVar (Name e) (Value e)) <$> envs.
Proof.
  intros Hnd. set (l := (λ e, (Name e, Value e)) <$> envs).
  assert (l.*1 = Name <$> envs) as Hfst.
  { unfold l. rewrite <- list_fmap_compose. by apply list_fmap_ext. }
  assert ((λ nv, mkEnvVar nv.1 nv.2) <$> l
          = (λ e, mkEnvVar (Name e) (Value e)) <$> envs) as Hback.
  { unfold l. rewrite <- list_fmap_compose. by apply list_fmap_ext. }
  rewrite <- envsToMap_strip, <- Hback.
  rewrite envsToMap_pairs, foldl_insert_pairs by by rewrite Hfst.
  rewrite (right_id_L ∅ (∪)). unfold pairsOf.
  by rewrite map_to_list_to_map by by rewrite Hfst.
Qed.

Lemma mapToEnvs_no_ValueFrom (O : MapRange) m e :
  e ∈ mapToEnvs O m → ValueFrom e = None.
Proof.
  rewrite mapToEnvs_fmap, list_elem_of_fmap. by intros (nv & -> & _).
Qed.

End MappingFacts.

Section MoreOperationFacts.
Context {R H W : Type} `{!Platform R H W}.
Variable defaultNamespace : string.
Variable O : MapRange.

Local Abbreviation nsOf opts := (Namespace (toConfig defaultNamespace opts)).

(** X15.  Set with no values is not skipped and is not the identity on the
    list: with a handle and one matching resource [s] in run-latest mode it
    still issues the Update, of a list that reads as the same mapping as
    before and is never longer than the fetched list (repeated names are
    collapsed); every pair it writes is rebuilt from name and value, so a
    ValueFrom of a fetched pair is dropped; and when the fetched list had no
    repeated name, the written pairs are, up to order, the names and values
    of the fetched pairs. *)
Theorem Set_no_values_rewrites appName opts (w : W) (s : Service R) envs client :
  appName ≠ "" →
  factory w = inr client →
  lister_List w (nsOf opts) appName = inr [s] →
  RunLatest s = Some envs →
  ∃ envs' : list EnvVar,
    calls (run (Set_ defaultNamespace O appName ∅ opts) w)
    = [EvFactory (inr client); EvList (nsOf opts) appName (inr [s]);
       EvUpdate client (nsOf opts) (setEnv s envs')
         (services_Update client (nsOf opts) (setEnv s envs') w).2]
    ∧ envsToMap envs' = envsToMap envs
    ∧ (length envs' ≤ length envs)%nat
    ∧ (∀ e, e ∈ envs' → ValueFrom e = None)
    ∧ (NoDup (Name <$> envs) →
       envs' ≡ₚ (λ e, mkEnvVar (Name e) (Value e)) <$> envs).
Proof.
  intros Hname Hf Hl Hrl.
  rewrite Set_shape, run_readModifyWrite, decide_False by done.
  rewrite Hf. simpl. rewrite Hl, Hrl.
  exists (mapToEnvs O (dedupeEnvs O ∅ envs)). simpl.
  rewrite dedupeEnvs_union, (left_id_L ∅ (∪)).
  split; [reflexivity|]. split; [apply envsToMap_mapToEnvs|]. split; [|split].
  - rewrite mapToEnvs_fmap, length_fmap, (range_perm O), length_map_to_list.
    apply envsToMap_size.
  - intros e. apply mapToEnvs_no_ValueFrom.
  - intros Hnd. rewrite (mapToEnvs_perm O). by apply pairsOf_envsToMap.
Qed.

(** X16.  List succeeds only on a non-empty app name with exactly one
    matching resource, in run-latest mode, and the mapping it returns is
    defined exactly on the names that occur in that resource's environment
    list; it has at most as many entries as the list has pairs, and as many
    when no name repeats. *)
Theorem List_success_names appName opts (w : W) (m : gmap string string) :
  result (run (List defaultNamespace appName opts) w) = Returns (inr m) →
  appName ≠ ""
  ∧ ∃ (s : Service R) envs,
      lister_List w (nsOf opts) appName = inr [s]
      ∧ RunLatest s = Some envs
      ∧ (∀ n, is_Some (m !! n) ↔ n ∈ Name <$> envs)
      ∧ (size m ≤ length envs)%nat
      ∧ (NoDup (Name <$> envs) → size m = length envs).
Proof.
  rewrite run_List. case_decide; simpl; [done|].
  destruct (lister_List w _ appName) as [err|[|s [|s2 l]]]; simpl; try done.
  destruct (RunLatest s) as [envs|] eqn:Hrl; simpl; [|done].
  intros [= <-]. split; [done|]. exists s, envs.
  split; [done|]. split; [done|]. split; [|split].
  - intros n. by rewrite envsToMap_lookup, lastValue_is_Some.
  - apply envsToMap_size.
  - intros Hnd. rewrite <- length_map_to_list.
    rewrite <- (length_fmap (λ nv, mkEnvVar nv.1 nv.2)).
    rewrite <- (length_fmap (λ e, mkEnvVar (Name e) (Value e)) envs).
    apply Permutation_length. by apply pairsOf_envsToMap.
Qed.

End MoreOperationFacts.

(* ===================================================================== *)
(** * Operations in sequence, on a platform that keeps what it accepted   *)
(* ===================================================================== *)

Section Sequences.
Context {R H W : Type} `{!Platform R H W} `{!PlatformLaws R H W}.
Variable defaultNamespace : string.
Variable O : MapRange.

Local Abbreviation nsOf opts := (Namespace (toConfig defaultNamespace opts)).

Lemma envsToMap_removeEnvs names envs n :
  envsToMap (removeEnvs names envs) !! n
  = if decide (n ∈ names) then None else lastValue n envs.
Proof.
  rewrite envsToMap_lookup, removeEnvs_keepEnvs. unfold lastValue. case_decide.
  - by rewrite keepEnvs_none_left.
  - by rewrite keepEnvs_other.
Qed.

(** X17.  After a successful Unset, a List of the same application in the
    same namespace returns the mapping of the fetched list without the
    removed names: a removed name is absent, every other name has the value
    of its last pair, as before. *)
Theorem List_after_Unset appName names optsU optsL (w : W) :
  nsOf optsL = nsOf optsU →
  result (run (Unset_ defaultNamespace appName names optsU) w) = Returns None →
  ∃ (s : Service R) envs (m : gmap string string),
    lister_List w (nsOf optsU) appName = inr [s]
    ∧ RunLatest s = Some envs
    ∧ result (run (List defaultNamespace appName optsL)
                  (final (run (Unset_ defaultNamespace appName names optsU) w)))
      = Returns (inr m)
    ∧ ∀ n, m !! n = if decide (n ∈ names) then None else lastValue n envs.
Proof.
  intros Hns. rewrite Unset_shape.
  intros (Hname & s & s1 & envs & Hl & Hrl & Hl1 & Hrl1)%readModifyWrite_then_listed.
  exists s, envs, (envsToMap (removeEnvs names envs)).
  split; [done|]. split; [done|]. split.
  - eapply run_List_single; [done|rewrite Hns; exact Hl1|done].
  - intros n. apply envsToMap_removeEnvs.
Qed.

(** X18.  Two successful Sets in a row add up: a List afterwards returns
    the second values laid over the first values laid over the mapping of
    the list fetched at the start; in particular the same Set twice gives
    what it gives once. *)
Theorem List_after_two_Sets appName values1 values2 opts optsL (w : W) :
  nsOf optsL = nsOf opts →
  result (run (Set_ defaultNamespace O appName values1 opts) w) = Returns None →
  result (run (Set_ defaultNamespace O appName values2 opts)
              (final (run (Set_ defaultNamespace O appName values1 opts) w)))
  = Returns None →
  ∃ (s : Service R) envs,
    lister_List w (nsOf opts) appName = inr [s]
    ∧ RunLatest s = Some envs
    ∧ result (run (List defaultNamespace appName optsL)
                (final (run (Set_ defaultNamespace O appName values2 opts)
                   (final (run (Set_ defaultNamespace O appName values1 opts) w)))))
      = Returns (inr (values2 ∪ (values1 ∪ envsToMap envs)))
    ∧ (values2 = values1 →
       values2 ∪ (values1 ∪ envsToMap envs) = values1 ∪ envsToMap envs).
Proof.
  intros Hns. rewrite !Set_shape.
  intros (Hname & s & s1 & envs & Hl & Hrl & Hl1 & Hrl1)%readModifyWrite_then_listed.
  intros (_ & s1' & s2 & envs1 & Hl1' & Hrl1' & Hl2 & Hrl2)%readModifyWrite_then_listed.
  rewrite Hl1 in Hl1'. injection Hl1' as <-.
  rewrite Hrl1 in Hrl1'. injection Hrl1' as <-.
  exists s, envs. split; [done|]. split; [done|]. split.
  - erewrite run_List_single; [|done|rewrite Hns; exact Hl2|exact Hrl2].
    rewrite envsToMap_mapToEnvs, dedupeEnvs_union.
    by rewrite envsToMap_mapToEnvs, dedupeEnvs_union.
  - intros ->. by rewrite (assoc_L (∪)), (idemp_L (∪)).
Qed.

(** X19.  A successful Set followed by a successful Unset: a List
    afterwards returns the merged mapping of the Set without the names of
    the Unset, so a name both set and unset is gone. *)
Theorem List_after_Set_and_Unset appName values names opts optsL (w : W) :
  nsOf optsL = nsOf opts →
  result (run (Set_ defaultNamespace O appName values opts) w) = Returns None →
  result (run (Unset_ defaultNamespace appName names opts)
              (final (run (Set_ defaultNamespace O appName values opts) w)))
  = Returns None →
  ∃ (s : Service R) envs (m : gmap string string),
    lister_List w (nsOf opts) appName = inr [s]
    ∧ RunLatest s = Some envs
    ∧ result (run (List defaultNamespace appName optsL)
                (final (run (Unset_ defaultNamespace appName names opts)
                   (final (run (Set_ defaultNamespace O appName values opts) w)))))
      = Returns (inr m)
    ∧ ∀ n, m !! n = if decide (n ∈ names) then None
                    else match values !! n with
                         | Some v => Some v
                         | None => lastValue n envs
                         end.
Proof.
  intros Hns. rewrite Set_shape, Unset_shape.
  intros (Hname & s & s1 & envs & Hl & Hrl & Hl1 & Hrl1)%readModifyWrite_then_listed.
  intros (_ & s1' & s2 & envs1 & Hl1' & Hrl1' & Hl2 & Hrl2)%readModifyWrite_then_listed.
  rewrite Hl1 in Hl1'. injection Hl1' as <-.
  rewrite Hrl1 in Hrl1'. injection Hrl1' as <-.
  exists s, envs, (envsToMap (removeEnvs names (mapToEnvs O (dedupeEnvs O values envs)))).
  split; [done|]. split; [done|]. split.
  - eapply run_List_single; [done|rewrite Hns; exact Hl2|done].
  - intros n. rewrite envsToMap_removeEnvs. case_decide; [done|].
    rewrite <- envsToMap_lookup, envsToMap_mapToEnvs, dedupeEnvs_union.
    rewrite lookup_union, envsToMap_lookup.
    by destruct (values !! n), (lastValue n envs).
Qed.

End Sequences.

(* ===================================================================== *)
(** * The further properties on the in-memory platform                    *)
(* ===================================================================== *)

(** ["B"; "A"; "B"] and ["A"; "B"] remove the same pairs. *)
Lemma removeEnvs_names_as_set_witness :
  (∀ n, n ∈ ["B"; "A"; "B"] ↔ n ∈ ["A"; "B"])
  ∧ removeEnvs ["B"; "A"; "B"] envABC = removeEnvs ["A"; "B"] envABC
  ∧ removeEnvs ["A"; "B"] envABC = [mkEnvVar "C" "3"].
Proof.
  assert (∀ n, n ∈ ["B"; "A"; "B"] ↔ n ∈ ["A"; "B"]) as Hsame.
  { intros n. rewrite !elem_of_cons, !elem_of_nil. tauto. }
  split; [exact Hsame|].
  split; [exact (removeEnvs_names_as_set ["B"; "A"; "B"] ["A"; "B"] envABC Hsame)|].
  reflexivity.
Defined.

(** A lister that times out: all three operations return the timeout. *)
Lemma lister_error_is_returned_witness :
  result (run (List (R:=Meta) (H:=unit) "default" "app" []) (listFailing envAB))
  = Returns (inl (ErrUpstream "timeout"))
  ∧ result (run (Set_ (R:=Meta) (H:=unit) "default" keyOrder "app" {["A" := "1"]} [])
                (listFailing envAB))
    = Returns (Some (ErrUpstream "timeout"))
  ∧ result (run (Unset_ (R:=Meta) (H:=unit) "default" "app" ["A"] []) (listFailing envAB))
    = Returns (Some (ErrUpstream "timeout")).
Proof.
  destruct (lister_error_is_returned (R:=Meta) (H:=unit) "default" keyOrder "app"
              {["A" := "1"]} ["A"] [] (listFailing envAB) "default" "app"
              (ErrUpstream "timeout")) as (HL & HS & HU).
  split; [apply HL; apply list_elem_of_here|].
  split; [apply HS|apply HU]; apply list_elem_of_further, list_elem_of_here.
Defined.

(** No handle and no application: the factory's error, not unknown-app. *)
Lemma factory_error_comes_first_witness :
  "app" ≠ ""
  ∧ factory noHandle = inl (ErrUpstream "no cluster")
  ∧ lister_List noHandle "default" "app" = inr []
  ∧ result (run (Set_ (R:=Meta) (H:=unit) "default" keyOrder "app" {["A" := "1"]} [])
                noHandle)
    = Returns (Some (ErrUpstream "no cluster"))
  ∧ result (run (Unset_ (R:=Meta) (H:=unit) "default" "app" ["A"] []) noHandle)
    = Returns (Some (ErrUpstream "no cluster")).
Proof.
  assert ("app" ≠ "") as H1 by done.
  assert (factory noHandle = inl (ErrUpstream "no cluster")) as H2 by reflexivity.
  split; [exact H1|]. split; [exact H2|]. split; [reflexivity|].
  destruct (factory_error_comes_first (R:=Meta) (H:=unit) "default" keyOrder "app"
              {["A" := "1"]} ["A"] [] noHandle (ErrUpstream "no cluster") H1 H2)
    as [HS HU].
  rewrite HS, HU. split; reflexivity.
Defined.

(** Unset ["Z"] over [A=0; B=2] writes the resource back as it is. *)
Lemma Unset_absent_names_rewrites_witness :
  "app" ≠ ""
  ∧ factory (store1 envAB) = inr tt
  ∧ lister_List (store1 envAB) "default" "app" = inr [app1 envAB]
  ∧ RunLatest (app1 envAB) = Some envAB
  ∧ (∀ e, e ∈ envAB → Name e ∉ ["Z"])
  ∧ run (Unset_ (R:=Meta) (H:=unit) "default" "app" ["Z"] []) (store1 envAB)
    = mkOutcome (store1 envAB)
        [EvFactory (inr tt); EvList "default" "app" (inr [app1 envAB]);
         EvUpdate tt "default" (app1 envAB) (inr (app1 envAB))]
        (Returns None).
Proof.
  assert ("app" ≠ "") as H1 by done.
  assert (factory (store1 envAB) = inr tt) as H2 by reflexivity.
  assert (lister_List (store1 envAB) "default" "app" = inr [app1 envAB]) as H3
    by reflexivity.
  assert (RunLatest (app1 envAB) = Some envAB) as H3' by reflexivity.
  assert (∀ e, e ∈ envAB → Name e ∉ ["Z"]) as H4.
  { intros e. unfold envAB. rewrite !elem_of_cons, !elem_of_nil.
    intros [->|[->|[]]] [?|[]]; discriminate. }
  split; [exact H1|]. split; [exact H2|]. split; [exact H3|]. split; [exact H3'|].
  split; [exact H4|].
  rewrite (Unset_absent_names_rewrites (R:=Meta) (H:=unit) "default" "app" ["Z"] []
             (store1 envAB) (app1 envAB) envAB tt H1 H2 H3 H3' H4).
  reflexivity.
Defined.

(** Set with no values over [A from a secret; B=2]: the Update carries two
    pairs without ValueFrom, "A" with its literal (empty) value. *)
Lemma Set_no_values_rewrites_witness :
  "app" ≠ ""
  ∧ factory (store1 [fromSecret; mkEnvVar "B" "2"]) = inr tt
  ∧ lister_List (store1 [fromSecret; mkEnvVar "B" "2"]) "default" "app"
    = inr [app1 [fromSecret; mkEnvVar "B" "2"]]
  ∧ RunLatest (app1 [fromSecret; mkEnvVar "B" "2"])
    = Some [fromSecret; mkEnvVar "B" "2"]
  ∧ ∃ envs' : list EnvVar,
      (∃ r, last (calls (run (Set_ "default" keyOrder "app" ∅ [])
                             (store1 [fromSecret; mkEnvVar "B" "2"])))
            = Some (EvUpdate tt "default"
                      (setEnv (app1 [fromSecret; mkEnvVar "B" "2"]) envs') r))
      ∧ envs' ≡ₚ [mkEnvVar "A" ""; mkEnvVar "B" "2"]
      ∧ fromSecret ∉ envs'.
Proof.
  assert ("app" ≠ "") as H1 by done.
  assert (factory (store1 [fromSecret; mkEnvVar "B" "2"]) = inr tt) as H2
    by reflexivity.
  assert (lister_List (store1 [fromSecret; mkEnvVar "B" "2"]) "default" "app"
          = inr [app1 [fromSecret; mkEnvVar "B" "2"]]) as H3 by reflexivity.
  assert (RunLatest (app1 [fromSecret; mkEnvVar "B" "2"])
          = Some [fromSecret; mkEnvVar "B" "2"]) as H4 by reflexivity.
  split; [exact H1|]. split; [exact H2|]. split; [exact H3|]. split; [exact H4|].
  destruct (Set_no_values_rewrites (R:=Meta) (H:=unit) "default" keyOrder "app" []
              (store1 [fromSecret; mkEnvVar "B" "2"])
              (app1 [fromSecret; mkEnvVar "B" "2"]) _ tt H1 H2 H3 H4)
    as (envs' & Hcalls & _ & _ & Hfrom & Hperm).
  exists envs'. split; [|split].
  - rewrite Hcalls. eexists. reflexivity.
  - apply Hperm. simpl. apply NoDup_cons. split.
    + rewrite elem_of_cons, elem_of_nil. intros [?|[]]; discriminate.
    + apply NoDup_singleton.
  - intros Hin. apply Hfrom in Hin. discriminate Hin.
Defined.

(** List over [A=1; B=2; A=3]: two names, from three pairs. *)
Lemma List_success_names_witness :
  result (run (List (R:=Meta) (H:=unit) "default" "app" []) (store1 envABA))
  = Returns (inr {["A" := "3"; "B" := "2"]})
  ∧ "app" ≠ ""
  ∧ (size ({["A" := "3"; "B" := "2"]} : gmap string string) ≤ 3)%nat.
Proof.
  assert (result (run (List (R:=Meta) (H:=unit) "default" "app" []) (store1 envABA))
          = Returns (inr {["A" := "3"; "B" := "2"]})) as H1 by reflexivity.
  destruct (List_success_names (R:=Meta) (H:=unit) "default" "app" []
              (store1 envABA) _ H1) as (Hname & s & envs & Hl & Hrl & _ & Hsize & _).
  split; [exact H1|]. split; [exact Hname|].
  injection Hl as <-. injection Hrl as <-. exact Hsize.
Defined.

(** Unset ["B"] over [A=1; B=2; C=3], then List: {"A":"1","C":"3"}. *)
Lemma List_after_Unset_witness :
  Namespace (toConfig "default" []) = Namespace (toConfig "default" [])
  ∧ result (run (Unset_ (R:=Meta) (H:=unit) "default" "app" ["B"] []) (store1 envABC))
    = Returns None
  ∧ ∃ m : gmap string string,
      result (run (List "default" "app" [])
                  (final (run (Unset_ (R:=Meta) (H:=unit) "default" "app" ["B"] [])
                              (store1 envABC))))
      = Returns (inr m)
      ∧ m !! "B" = None ∧ m !! "A" = Some "1" ∧ m !! "C" = Some "3".
Proof.
  assert (Namespace (toConfig "default" []) = Namespace (toConfig "default" []))
    as H1 by reflexivity.
  assert (result (run (Unset_ (R:=Meta) (H:=unit) "default" "app" ["B"] [])
                      (store1 envABC)) = Returns None) as H2 by reflexivity.
  split; [exact H1|]. split; [exact H2|].
  destruct (List_after_Unset (R:=Meta) (H:=unit) "default" "app" ["B"] [] []
              (store1 envABC) H1 H2) as (s & envs & m & Hl & Hrl & Hres & Hm).
  exists m. split; [exact Hres|].
  injection Hl as <-. injection Hrl as <-. rewrite !Hm. repeat split.
Defined.

(** Set {"A":"1"} then Set {"B":"5"} over {"A":"0","B":"2"}, then List. *)
Lemma List_after_two_Sets_witness :
  let w1 := final (run (Set_ (R:=Meta) (H:=unit) "default" keyOrder "app"
                             {["A" := "1"]} []) (store1 envAB)) in
  let w2 := final (run (Set_ (R:=Meta) (H:=unit) "default" keyOrder "app"
                             {["B" := "5"]} []) w1) in
  result (run (Set_ (R:=Meta) (H:=unit) "default" keyOrder "app" {["A" := "1"]} [])
              (store1 envAB)) = Returns None
  ∧ result (run (Set_ (R:=Meta) (H:=unit) "default" keyOrder "app" {["B" := "5"]} [])
                w1) = Returns None
  ∧ result (run (List "default" "app" []) w2)
    = Returns (inr {["A" := "1"; "B" := "5"]}).
Proof.
  intros w1 w2.
  assert (result (run (Set_ (R:=Meta) (H:=unit) "default" keyOrder "app"
                            {["A" := "1"]} []) (store1 envAB)) = Returns None)
    as H1 by reflexivity.
  assert (result (run (Set_ (R:=Meta) (H:=unit) "default" keyOrder "app"
                            {["B" := "5"]} []) w1) = Returns None) as H2 by reflexivity.
  split; [exact H1|]. split; [exact H2|].
  destruct (List_after_two_Sets (R:=Meta) (H:=unit) "default" keyOrder "app"
              {["A" := "1"]} {["B" := "5"]} [] [] (store1 envAB) eq_refl H1 H2)
    as (s & envs & Hl & Hrl & Hres & _).
  subst w2 w1. rewrite Hres. injection Hl as <-. injection Hrl as <-. reflexivity.
Defined.

(** Set {"C":"3"} then Unset ["A"; "C"] over {"A":"0","B":"2"}, then List. *)
Lemma List_after_Set_and_Unset_witness :
  let w1 := final (run (Set_ (R:=Meta) (H:=unit) "default" keyOrder "app"
                             {["C" := "3"]} []) (store1 envAB)) in
  let w2 := final (run (Unset_ (R:=Meta) (H:=unit) "default" "app" ["A"; "C"] []) w1) in
  result (run (Set_ (R:=Meta) (H:=unit) "default" keyOrder "app" {["C" := "3"]} [])
              (store1 envAB)) = Returns None
  ∧ result (run (Unset_ (R:=Meta) (H:=unit) "default" "app" ["A"; "C"] []) w1) = Returns None
  ∧ ∃ m : gmap string string,
      result (run (List "default" "app" []) w2) = Returns (inr m)
      ∧ m !! "A" = None ∧ m !! "C" = None ∧ m !! "B" = Some "2".
Proof.
  intros w1 w2.
  assert (result (run (Set_ (R:=Meta) (H:=unit) "default" keyOrder "app"
                            {["C" := "3"]} []) (store1 envAB)) = Returns None)
    as H1 by reflexivity.
  assert (result (run (Unset_ (R:=Meta) (H:=unit) "default" "app" ["A"; "C"] []) w1)
          = Returns None) as H2 by reflexivity.
  split; [exact H1|]. split; [exact H2|].
  destruct (List_after_Set_and_Unset (R:=Meta) (H:=unit) "default" keyOrder "app"
              {["C" := "3"]} ["A"; "C"] [] [] (store1 envAB) eq_refl H1 H2)
    as (s & envs & m & Hl & Hrl & Hres & Hm).
  exists m. split; [exact Hres|].
  injection Hl as <-. injection Hrl as <-. rewrite !Hm. repeat split.
Defined.
